(** * libdmt: page provider, block manager and bump allocator

    A shallow embedding of

    - [dmt/allocator/page.hpp]        (class [Page]),
    - [allocators/strategy/block.hpp] (class [Block]),
    - [libdmt/allocator/bump.hpp]     (class [Bump]),

    followed by the properties established about them.  The platform is a
    64-bit one, as the 48-bit addresses and the 16-byte registry of the
    page provider require.  Unsigned machine integers are integers of [Z]
    with the wrap-around written out, pointers are addresses in [Z] with
    [0] for [nullptr]. *)

From Stdlib Require Import ZArith List Bool Lia.
From stdpp Require Import gmap.
Import ListNotations.
Open Scope Z_scope.

(** ** Machine arithmetic shared by the three classes *)

Module Util.

(** [std::size_t] and [std::uintptr_t] are 64 bits wide. *)
Definition wrap64 (z : Z) : Z := z mod 2 ^ 64.

(** Assignment to a bit-field of [w] bits keeps the low [w] bits. *)
Definition bits (w z : Z) : Z := z mod 2 ^ w.

(** Modelled from the spec: [internal::AlignUp] of [internal/util.hpp],
    named [align_up] by the spec and absent from the sources at hand.  It
    rounds [n] up to the next multiple of the power of two [alignment], with
    the usual mask on 64-bit unsigned integers. *)
Definition AlignUp (n alignment : Z) : Z :=
  Z.land (wrap64 (n + alignment - 1)) (wrap64 (Z.lnot (wrap64 (alignment - 1)))).

(** Modelled from the spec: [internal::AlignDown] of [internal/util.hpp],
    named [align_down] by the spec and absent from the sources at hand.  It
    rounds [n] down to a multiple of the power of two [alignment]. *)
Definition AlignDown (n alignment : Z) : Z :=
  Z.land (wrap64 n) (wrap64 (Z.lnot (wrap64 (alignment - 1)))).

(** The next answer of a platform whose answers are listed in [l], and the
    answers left; a platform whose list is used up accepts. *)
Definition next_bool (l : list bool) : bool * list bool :=
  match l with
  | [] => (true, [])
  | b :: rest => (b, rest)
  end.

End Util.

(** ** The page provider, [dmt::allocator::Page] *)

Module Page.

Inductive Error : Set := InvalidInput | Internal.

(** [Result<T>], a value or an [Error]. *)
Inductive Result (A : Type) : Type :=
| Ok (a : A)
| Fail (e : Error).
Arguments Ok {A} a.
Arguments Fail {A} e.

Definition has_error {A} (r : Result A) : bool :=
  match r with Ok _ => false | Fail _ => true end.

(** [struct Span]: two bit-fields, 48 and 16 bits, in one 64-bit word. *)
Record Span : Set := { address : Z; count : Z }.

Inductive State : Set := Inactive | Empty | Partial | Full.

Definition to_underlying (s : State) : Z :=
  match s with Inactive => 0 | Empty => 1 | Partial => 2 | Full => 3 end.

(** [struct Registry]: bit-fields of 48, 12, 48, 2 and 18 bits. *)
Record Registry : Set := {
  self_address : Z;
  next_slot : Z;
  next_registry : Z;
  state : Z;
  _padding : Z
}.

Definition Registry_eqb (a b : Registry) : bool :=
  (self_address a =? self_address b) && (next_slot a =? next_slot b) &&
  (next_registry a =? next_registry b) && (state a =? state b) &&
  (_padding a =? _padding b).

(** The value-initialised [std::atomic<Registry>]: every bit is zero. *)
Definition zero_registry : Registry :=
  {| self_address := 0; next_slot := 0; next_registry := 0; state := 0;
     _padding := 0 |}.

Definition sizeof_Registry : Z := 16.
Definition sizeof_Span : Z := 8.
Definition kRegistrySize : Z := 1.

(** Modelled from the spec: [internal::VirtualAddressRange] of
    [internal/platform.hpp], which is not part of the sources at hand; a
    "contiguous run of OS pages starting at a base address, carrying a page
    count", built in [Release] from a [base] and a number of [pages]. *)
Record VirtualAddressRange : Set := { base : Z; pages : Z }.

(** What the provider does to the outside: calls of the platform, and
    successful compare-exchanges on its atomic cell. *)
Inductive Event : Set :=
| EvFetch (n : Z) (got : option Z)
| EvReturn (range : VirtualAddressRange) (ok : bool)
| EvCas (old new : Registry).

(** The provider's only member, [registry_], together with the memory and
    the platform it runs on.  [mapped] tells which pages (by page number)
    are mapped, [cells] holds the 64-bit word stored at an address.  The
    three oracles are what the platform will answer: the base address of
    each [FetchPages] ([None]: failure), whether each [ReturnPages]
    succeeds, and whether each [compare_exchange_weak] is free of a spurious
    failure.  [trace] lists the events, newest first. *)
Record World : Type := {
  registry_ : Registry;
  mapped : Z -> bool;
  cells : Z -> Z;
  fetch_oracle : list (option Z);
  return_oracle : list bool;
  cas_oracle : list bool;
  trace : list Event
}.

(** The outcome of a run: a value and the world after it, an access to
    memory that is not mapped (undefined behaviour), or a loop that was cut
    off by the fuel of the model. *)
Inductive Res (A : Type) : Type :=
| Done (a : A) (w : World)
| Fault
| OutOfFuel.
Arguments Done {A} a w.
Arguments Fault {A}.
Arguments OutOfFuel {A}.

Definition M (A : Type) : Type := World -> Res A.

Definition ret {A} (a : A) : M A := fun w => Done a w.

Definition bind {A B} (m : M A) (k : A -> M B) : M B :=
  fun w => match m w with
           | Done a w' => k a w'
           | Fault => Fault
           | OutOfFuel => OutOfFuel
           end.

Notation "'do' x <- m ; k" := (bind m (fun x => k))
  (at level 10, x name, m at level 100, k at level 200,
   format "'[v' 'do'  x  <-  m ; '/' k ']'").

(** The 64-bit word of a [Span], [address] in the low 48 bits. *)
Definition Span_to_word (s : Span) : Z :=
  Z.lor (Util.bits 48 (address s)) (Z.shiftl (Util.bits 16 (count s)) 48).

Definition Span_of_word (x : Z) : Span :=
  {| address := Z.land x (Z.ones 48); count := Z.shiftr (Util.wrap64 x) 48 |}.

Section Platform.

(** [internal::GetPageSize()], a constant of the platform. *)
Variable page_size : Z.

Definition kSpanSetStart : Z := sizeof_Registry / sizeof_Span.
Definition kSpanSetEnd : Z := (kRegistrySize * page_size) / sizeof_Span.

Definition in_range (r : VirtualAddressRange) (pg : Z) : bool :=
  (base r / page_size <=? pg) && (pg <? base r / page_size + pages r).

(** A base the platform may hand out: not null, page-aligned, and with the
    whole range inside the 48-bit user address space the [Span] relies on. *)
Definition valid_base (b n : Z) : bool :=
  (0 <? b) && (b mod page_size =? 0) && (b + n * page_size <=? 2 ^ 48).

Definition next_fetch (w : World) : option Z * list (option Z) :=
  match fetch_oracle w with
  | [] => (None, [])
  | o :: rest => (o, rest)
  end.

(** Modelled from the spec: [internal::FetchPages] of
    [internal/platform.hpp], which is not part of the sources at hand
    ([fetch_pages(count) -> Result<Span>], "the returned base is guaranteed
    page-aligned", failures are opaque).  The platform answers with the
    next entry of [fetch_oracle]; fresh pages are mapped and read as zero. *)
Definition FetchPages (n : Z) : M (Result VirtualAddressRange) := fun w =>
  let (o, rest) := next_fetch w in
  match o with
  | Some b =>
      if valid_base b n then
        let r := {| base := b; pages := n |} in
        Done (Ok r)
          {| registry_ := registry_ w;
             mapped := fun pg => in_range r pg || mapped w pg;
             cells := fun a => if in_range r (a / page_size) then 0 else cells w a;
             fetch_oracle := rest; return_oracle := return_oracle w;
             cas_oracle := cas_oracle w;
             trace := EvFetch n (Some b) :: trace w |}
      else
        Done (Fail Internal)
          {| registry_ := registry_ w; mapped := mapped w; cells := cells w;
             fetch_oracle := rest; return_oracle := return_oracle w;
             cas_oracle := cas_oracle w; trace := EvFetch n None :: trace w |}
  | None =>
      Done (Fail Internal)
        {| registry_ := registry_ w; mapped := mapped w; cells := cells w;
           fetch_oracle := rest; return_oracle := return_oracle w;
           cas_oracle := cas_oracle w; trace := EvFetch n None :: trace w |}
  end.

(** Modelled from the spec: [internal::ReturnPages] of
    [internal/platform.hpp], which is not part of the sources at hand
    ([return_pages(span) -> Result<()>]).  The platform answers with the
    next entry of [return_oracle]; on success the pages of the range are
    unmapped. *)
Definition ReturnPages (r : VirtualAddressRange) : M (Result unit) := fun w =>
  let (ok, rest) := Util.next_bool (return_oracle w) in
  if ok then
    Done (Ok tt)
      {| registry_ := registry_ w;
         mapped := fun pg => negb (in_range r pg) && mapped w pg;
         cells := cells w;
         fetch_oracle := fetch_oracle w; return_oracle := rest;
         cas_oracle := cas_oracle w; trace := EvReturn r true :: trace w |}
  else
    Done (Fail Internal)
      {| registry_ := registry_ w; mapped := mapped w; cells := cells w;
         fetch_oracle := fetch_oracle w; return_oracle := rest;
         cas_oracle := cas_oracle w; trace := EvReturn r false :: trace w |}.

(** Reading and writing one 64-bit word of mapped memory. *)
Definition load (a : Z) : M Z := fun w =>
  if mapped w (a / page_size) then Done (cells w a) w else Fault.

Definition store (a v : Z) : M unit := fun w =>
  if mapped w (a / page_size) then
    Done tt
      {| registry_ := registry_ w; mapped := mapped w;
         cells := fun x => if x =? a then v else cells w x;
         fetch_oracle := fetch_oracle w; return_oracle := return_oracle w;
         cas_oracle := cas_oracle w; trace := trace w |}
  else Fault.

(** [registry_.load(std::memory_order_relaxed)]. *)
Definition load_registry : M Registry := fun w => Done (registry_ w) w.

(** [registry_.compare_exchange_weak(expected, desired)]: it may fail
    spuriously, as [cas_oracle] says; otherwise it installs [desired] when
    the cell holds [expected], bit for bit. *)
Definition compare_exchange_weak (expected desired : Registry) : M bool :=
  fun w =>
  let (sound, rest) := Util.next_bool (cas_oracle w) in
  if sound && Registry_eqb (registry_ w) expected then
    Done true
      {| registry_ := desired; mapped := mapped w; cells := cells w;
         fetch_oracle := fetch_oracle w; return_oracle := return_oracle w;
         cas_oracle := rest; trace := EvCas expected desired :: trace w |}
  else
    Done false
      {| registry_ := registry_ w; mapped := mapped w; cells := cells w;
         fetch_oracle := fetch_oracle w; return_oracle := return_oracle w;
         cas_oracle := rest; trace := trace w |}.

(** [Page::CreateNewRegistry]. *)
Definition CreateNewRegistry (registry : Registry) : M (Result unit) :=
  do va_range_or <- FetchPages kRegistrySize;
  match va_range_or with
  | Fail _ => ret (Fail Internal)
  | Ok va_range =>
      let new_registry :=
        {| self_address := Util.bits 48 (base va_range);
           next_slot := Util.bits 12 (sizeof_Registry / sizeof_Span);
           next_registry :=
             if negb (state registry =? to_underlying Inactive)
             then self_address registry
             else next_registry registry;
           state := to_underlying Empty;
           _padding := _padding registry |} in
      do swapped <- compare_exchange_weak registry new_registry;
      if negb swapped then
        do result <- ReturnPages va_range;
        if has_error result then ret (Fail Internal) else ret (Ok tt)
      else ret (Ok tt)
  end.

(** [Page::RegisterSpan]; [fuel] bounds the turns of its [while (true)]. *)
Fixpoint RegisterSpan (fuel : nat) (span : Span) : M (Result unit) :=
  match fuel with
  | O => fun _ => OutOfFuel
  | S fuel' =>
      do registry <- load_registry;
      if state registry =? to_underlying Inactive then
        do result <- CreateNewRegistry registry;
        match result with
        | Fail e => ret (Fail e)
        | Ok _ => RegisterSpan fuel' span
        end
      else if state registry =? to_underlying Full then
        do result <- CreateNewRegistry registry;
        match result with
        | Fail e => ret (Fail e)
        | Ok _ => RegisterSpan fuel' span
        end
      else
        let span_set := self_address registry in
        let slot := Util.bits 12 (next_slot registry + 1) in
        let new_registry :=
          {| self_address := self_address registry;
             next_slot := slot;
             next_registry := next_registry registry;
             state := if slot =? kSpanSetEnd
                      then to_underlying Full
                      else to_underlying Partial;
             _padding := _padding registry |} in
        do swapped <- compare_exchange_weak registry new_registry;
        if swapped then
          do _ <- store (span_set + sizeof_Span * next_slot registry)
                        (Span_to_word span);
          ret (Ok tt)
        else RegisterSpan fuel' span
  end.

(** The [for] loop of [Page::FindSpan], [n] slots from slot [i] on. *)
Fixpoint FindSpan_loop (n : nat) (i : Z) (span_set p : Z) : M (option Span) :=
  match n with
  | O => ret None
  | S n' =>
      do x <- load (span_set + sizeof_Span * i);
      if address (Span_of_word x) =? p
      then ret (Some (Span_of_word x))
      else FindSpan_loop n' (i + 1) span_set p
  end.

(** [Page::FindSpan]. *)
Definition FindSpan (registry : Registry) (p : Z) : M (option Span) :=
  let span_set := self_address registry in
  FindSpan_loop (Z.to_nat (kSpanSetEnd - kSpanSetStart)) kSpanSetStart
                span_set p.

(** [Page::Allocate]. *)
Definition Allocate (fuel : nat) (n : Z) : M (Result Z) :=
  if (n =? 0) || (n >=? Z.shiftl 1 16) then ret (Fail InvalidInput)
  else
    do va_range_or <- FetchPages n;
    match va_range_or with
    | Fail _ => ret (Fail Internal)
    | Ok va_range =>
        let span := {| address := Util.bits 48 (base va_range);
                       count := Util.bits 16 n |} in
        do result <- RegisterSpan fuel span;
        match result with
        | Fail e =>
            do inner_result <- ReturnPages va_range;
            if has_error inner_result then ret (Fail Internal)
            else ret (Fail e)
        | Ok _ => ret (Ok (base va_range))
        end
    end.

(** [Page::Release]. *)
Definition Release (p : Z) : M (Result unit) :=
  if p =? 0 then ret (Fail InvalidInput)
  else
    do registry <- load_registry;
    do maybe_span <- FindSpan registry p;
    match maybe_span with
    | None => ret (Fail InvalidInput)
    | Some span =>
        let va_range := {| base := p; pages := count span |} in
        do result <- ReturnPages va_range;
        if has_error result then ret (Fail Internal) else ret (Ok tt)
    end.

End Platform.

(** A provider that was just constructed, on a platform that will answer
    as the three oracles say; no page is mapped yet. *)
Definition fresh (fo : list (option Z)) (ro co : list bool) : World :=
  {| registry_ := zero_registry;
     mapped := fun _ => false;
     cells := fun _ => 0;
     fetch_oracle := fo; return_oracle := ro; cas_oracle := co;
     trace := [] |}.

End Page.

(** ** The block manager, [allocators::Block] *)

Module Block.

Inductive BlocksMust : Set := HaveAtLeastSizeBytes | NoMoreThanSizeBytes.

Inductive WhenFull : Set := GrowStorage | ReturnNull.

Definition BlocksMust_eqb (a b : BlocksMust) : bool :=
  match a, b with
  | HaveAtLeastSizeBytes, HaveAtLeastSizeBytes => true
  | NoMoreThanSizeBytes, NoMoreThanSizeBytes => true
  | _, _ => false
  end.

Definition WhenFull_eqb (a b : WhenFull) : bool :=
  match a, b with
  | GrowStorage, GrowStorage => true
  | ReturnNull, ReturnNull => true
  | _, _ => false
  end.

(** [struct Block::Options]. *)
Record Options : Set := {
  alignment : Z;
  size : Z;
  must_contain_size_bytes_in_space : bool;
  grow_when_full : bool
}.

(** [Block::kDefaultOptions], from the template arguments of the class:
    the alignment, size, limit and grow policy given by [AlignmentT],
    [SizeT], [LimitT] and [GrowT] (or their defaults), and the least
    alignment [ALLOCATORS_ALLOCATORS_ALIGNMENT] of the build. *)
Definition kDefaultOptions (least_alignment : Z) (alignmentT sizeT : Z)
    (limitT : BlocksMust) (growT : WhenFull) : Options :=
  {| alignment := Z.max least_alignment alignmentT;
     size := sizeT;
     must_contain_size_bytes_in_space :=
       BlocksMust_eqb limitT HaveAtLeastSizeBytes;
     grow_when_full := WhenFull_eqb growT GrowStorage |}.

Section Header.

(** [internal::GetBlockHeaderSize()], the size of the in-band header,
    whose declaration is not part of the sources at hand. *)
Variable GetBlockHeaderSize : Z.

(** [Block::GetAlignedSize]. *)
Definition GetAlignedSize (options_ : Options) : Z :=
  if must_contain_size_bytes_in_space options_
  then Util.AlignUp (Util.wrap64 (size options_ + GetBlockHeaderSize))
                    (alignment options_)
  else Util.AlignDown (size options_) (alignment options_).

End Header.

End Block.

(** ** The bump allocator, [dmt::allocator::Bump] *)

Module Bump.

(** Modelled from the spec: [internal::ChunkHeader] of
    [internal/chunk.hpp], which is not part of the sources at hand; the
    in-band header "containing the block's total byte size and a pointer to
    the next block in its list". *)
Record ChunkHeader : Set := { chunk_size : Z; next : Z }.

(** Modelled from the spec: [internal::Allocation] of
    [internal/types.hpp], which is not part of the sources at hand; built
    in [CreateAllocation] from a [base] and a [size]. *)
Record Allocation : Set := { base : Z; size : Z }.

(** The two ways to give a chunk back, [internal::ReleasePages] and
    [internal::ReleaseBytes]. *)
Inductive Releaser : Set := ReleasePages | ReleaseBytes.

(** Calls of the platform made on behalf of an allocator. *)
Inductive Event : Set :=
| EvAllocatePages (n : Z) (got : option Z)
| EvAllocateBytes (n alignment : Z) (got : option Z)
| EvRelease (release : Releaser) (chunk : Z) (ok : bool).

(** The heap the allocators live on: the header of every live chunk, by
    the address of the chunk, what the platform will answer to the next
    allocations and releases, and the calls made so far, newest first. *)
Record Heap : Type := {
  headers : gmap Z ChunkHeader;
  alloc_oracle : list (option Z);
  release_oracle : list bool;
  log : list Event
}.

(** The members of a [Bump]. *)
Record Bump : Set := { offset_ : Z; chunks_ : Z; current_ : Z }.

(** The template arguments of [Bump<T, Args...>]: the alignment of [T] and
    the values of [AlignmentT], [SizeT] and [GrowT] ([AlignmentT<0>] and
    [GrowT<WhenFull::GrowStorage>] when left out). *)
Record Template : Set := {
  alignment_of_T : Z;
  AlignmentT : Z;
  SizeT : Z;
  GrowT : Block.WhenFull
}.

(** A run ends with a value, with an access through a pointer to no live
    chunk (undefined behaviour), or is cut off by the fuel of the model. *)
Inductive Outcome (A : Type) : Type :=
| Done (a : A)
| Fault
| OutOfFuel.
Arguments Done {A} a.
Arguments Fault {A}.
Arguments OutOfFuel {A}.

(** The size of a pointer to [void]. *)
Definition sizeof_pointer : Z := 8.

(** [template <class U> Bump(const Bump<U>&) noexcept {}]: the body is
    empty, the members take their default initialisers, and the argument is
    a reference to a constant, returned as it is. *)
Definition Bump_rebind (other : Bump) (h : Heap) : Bump * Bump * Heap :=
  ({| offset_ := 0; chunks_ := 0; current_ := 0 |}, other, h).

(** [explicit Bump(){}]. *)
Definition Bump_new : Bump := {| offset_ := 0; chunks_ := 0; current_ := 0 |}.

(** Modelled from the spec: [internal::ReleaseChunks] of
    [internal/chunk.hpp], which is not part of the sources at hand
    ([ReleaseList]: it "walks head, head.next, ... until null", reads [next]
    before it releases a node, and "the first release failure terminates
    the walk").  The platform answers each release with the next entry of
    [release_oracle]; a released chunk is no longer live. *)
Fixpoint ReleaseChunks_walk (fuel : nat) (chunk : Z) (release : Releaser)
    (h : Heap) : Outcome Heap :=
  match fuel with
  | O => OutOfFuel
  | S fuel' =>
      if chunk =? 0 then Done h
      else
        match headers h !! chunk with
        | None => Fault
        | Some hd =>
            let (ok, rest) := Util.next_bool (release_oracle h) in
            if ok then
              ReleaseChunks_walk fuel' (next hd) release
                {| headers := delete chunk (headers h);
                   alloc_oracle := alloc_oracle h; release_oracle := rest;
                   log := EvRelease release chunk true :: log h |}
            else
              Done {| headers := headers h; alloc_oracle := alloc_oracle h;
                      release_oracle := rest;
                      log := EvRelease release chunk false :: log h |}
        end
  end.

(** Every turn of the walk releases a live chunk, so one turn more than
    there are live chunks is fuel enough. *)
Definition internal_ReleaseChunks (chunk : Z) (release : Releaser) (h : Heap)
    : Outcome Heap :=
  ReleaseChunks_walk (S (stdpp.base.size (headers h))) chunk release h.

Section Instance.

(** [internal::GetPageSize()] and [internal::GetChunkHeaderSize()],
    constants whose declarations are not part of the sources at hand. *)
Variable GetPageSize : Z.
Variable GetChunkHeaderSize : Z.
Variable T : Template.

Definition Alignment_ : Z :=
  Z.max (Z.max (alignment_of_T T) sizeof_pointer) (AlignmentT T).

Definition RequestSize_ : Z := SizeT T.

Definition AlignedSize_ : Z :=
  Util.AlignUp (Util.wrap64 (RequestSize_ + GetChunkHeaderSize)) Alignment_.

Definition GrowWhenFull_ : bool := Block.WhenFull_eqb (GrowT T) Block.GrowStorage.

(** [Bump::IsPageMultiple]. *)
Definition IsPageMultiple : bool :=
  (AlignedSize_ >? GetPageSize) && (AlignedSize_ mod GetPageSize =? 0).

(** [Bump::CreateAllocation]. *)
Definition CreateAllocation (p : Z) : Allocation :=
  {| base := p;
     size := if IsPageMultiple then AlignedSize_ / GetPageSize
             else AlignedSize_ |}.

Definition next_alloc (h : Heap) : option Z * list (option Z) :=
  match alloc_oracle h with
  | [] => (None, [])
  | o :: rest => (o, rest)
  end.

(** Modelled from the spec: [internal::AllocatePages],
    [internal::AllocateBytes] and
    [internal::CreateChunkHeaderFromAllocation], which are not part of the
    sources at hand ([fetch_pages], [fetch_bytes(size, align)] and
    [Create(range, next)] there: the base is page-aligned, respectively
    aligned as asked, and the header is written "into the first bytes of
    the range" with no successor).  The platform answers with the next
    entry of [alloc_oracle]; an answer that is null or not aligned counts as
    a failure. *)
Definition AllocateNewChunk (h : Heap) : Z * Heap :=
  let (o, rest) := next_alloc h in
  let align := if IsPageMultiple then GetPageSize else Alignment_ in
  let got :=
    match o with
    | Some p => if (0 <? p) && (p mod align =? 0) then Some p else None
    | None => None
    end in
  let e := if IsPageMultiple
           then EvAllocatePages (AlignedSize_ / GetPageSize) got
           else EvAllocateBytes AlignedSize_ Alignment_ got in
  match got with
  | Some p =>
      (p, {| headers := <[p := {| chunk_size := size (CreateAllocation p);
                                   next := 0 |}]> (headers h);
             alloc_oracle := rest; release_oracle := release_oracle h;
             log := e :: log h |})
  | None =>
      (0, {| headers := headers h; alloc_oracle := rest;
             release_oracle := release_oracle h; log := e :: log h |})
  end.

(** Modelled from the spec: [internal::GetChunk] of [internal/chunk.hpp],
    which is not part of the sources at hand: "the payload region is
    [base + sizeof(header), base + size)", and the offset of the allocator
    is an offset "into that block's payload". *)
Definition GetChunk (chunk : Z) : Z := Util.wrap64 (chunk + GetChunkHeaderSize).

(** [Bump::ReleaseChunks]. *)
Definition ReleaseChunks (chunk : Z) (h : Heap) : Outcome Heap :=
  let release := if IsPageMultiple then ReleasePages else ReleaseBytes in
  internal_ReleaseChunks chunk release h.

(** The last three statements of [Bump::allocate]. *)
Definition serve (request_size : Z) (b : Bump) (h : Heap)
    : Outcome (Z * Bump * Heap) :=
  let base := GetChunk (current_ b) in
  let result := Util.wrap64 (base + offset_ b) in
  Done (result,
        {| offset_ := Util.wrap64 (offset_ b + request_size);
           chunks_ := chunks_ b; current_ := current_ b |},
        h).

(** The middle of [Bump::allocate], once the first chunk exists. *)
Definition allocate_in_chunk (n : Z) (b : Bump) (h : Heap)
    : Outcome (Z * Bump * Heap) :=
  let request_size := Util.AlignUp n Alignment_ in
  let remaining_size :=
    Util.wrap64 (AlignedSize_ - offset_ b - GetChunkHeaderSize) in
  if request_size >? remaining_size then
    if negb GrowWhenFull_ then Done (0, b, h)
    else
      let (chunk, h1) := AllocateNewChunk h in
      if chunk =? 0 then Done (0, b, h1)
      else
        match headers h1 !! current_ b with
        | None => Fault
        | Some hd =>
            serve request_size
              {| offset_ := 0; chunks_ := chunks_ b; current_ := chunk |}
              {| headers := <[current_ b := {| chunk_size := chunk_size hd;
                                               next := chunk |}]> (headers h1);
                 alloc_oracle := alloc_oracle h1;
                 release_oracle := release_oracle h1; log := log h1 |}
        end
  else serve request_size b h.

(** [Bump::allocate]; the result is the pointer, [0] for [nullptr]. *)
Definition allocate (n : Z) (b : Bump) (h : Heap) : Outcome (Z * Bump * Heap) :=
  if n >? AlignedSize_ then Done (0, b, h)
  else if chunks_ b =? 0 then
    let (chunk, h1) := AllocateNewChunk h in
    if chunk =? 0 then
      Done (0, {| offset_ := offset_ b; chunks_ := 0; current_ := current_ b |},
            h1)
    else
      allocate_in_chunk n
        {| offset_ := offset_ b; chunks_ := chunk; current_ := chunk |} h1
  else allocate_in_chunk n b h.

(** [Bump::deallocate]. *)
Definition deallocate (p n : Z) (b : Bump) (h : Heap) : Bump * Heap := (b, h).

(** [Bump::Reset]. *)
Definition Reset (b : Bump) (h : Heap) : Outcome (Bump * Heap) :=
  let b1 := {| offset_ := 0; chunks_ := chunks_ b; current_ := current_ b |} in
  if negb (chunks_ b1 =? 0) then
    match ReleaseChunks (chunks_ b1) h with
    | Done h1 =>
        Done ({| offset_ := offset_ b1; chunks_ := 0; current_ := current_ b1 |},
              h1)
    | Fault => Fault
    | OutOfFuel => OutOfFuel
    end
  else
    Done ({| offset_ := offset_ b1; chunks_ := 0; current_ := current_ b1 |}, h).

End Instance.

(** A heap with no live chunk, on a platform that will answer as the two
    oracles say. *)
Definition empty_heap (ao : list (option Z)) (ro : list bool) : Heap :=
  {| headers := ∅; alloc_oracle := ao; release_oracle := ro; log := [] |}.

End Bump.

(** * Notions used to state the properties *)

(** ** For the page provider *)

Module PageFacts.
Import Page.

(** The value of a run, when it ends normally. *)
Definition result {A} (r : Res A) : option A :=
  match r with Done a _ => Some a | _ => None end.

(** The world after a run ([d] when the run does not end normally). *)
Definition world_after {A} (r : Res A) (d : World) : World :=
  match r with Done _ w => w | _ => d end.

(** The registries that ever were: the header in the cell, and the headers
    the cell held before and after each compare-exchange that succeeded. *)
Fixpoint headers_of_trace (tr : list Event) : list Registry :=
  match tr with
  | [] => []
  | EvCas old new :: tr' => old :: new :: headers_of_trace tr'
  | _ :: tr' => headers_of_trace tr'
  end.

Definition headers_of (w : World) : list Registry :=
  registry_ w :: headers_of_trace (trace w).

Section Invariant.

Variable page_size : Z.

(** The invariant the data model states for a registry header [r], where
    [tr] is the history of the cell: the registries that were retired are
    the [old] headers of the compare-exchanges of [tr]. *)
Definition header_ok (tr : list Event) (r : Registry) : Prop :=
  state r <> to_underlying Inactive ->
  (kSpanSetStart <= next_slot r <= kSpanSetEnd page_size) /\
  (state r = to_underlying Full <-> next_slot r = kSpanSetEnd page_size) /\
  (next_registry r = 0 \/
   exists old new, In (EvCas old new) tr /\
                   state old = to_underlying Full /\
                   self_address old = next_registry r).

(** The runs of the provider: from a provider just constructed, any
    number of [RegisterSpan] and of [CreateNewRegistry], and of [Allocate]
    and [Release] between them.  [CreateNewRegistry] is entered as
    [RegisterSpan] enters it: with a header loaded from the cell, which, if
    it still is the header in the cell, is [Inactive] or [Full]. *)
Inductive run : World -> Prop :=
| run_fresh fo ro co : run (fresh fo ro co)
| run_RegisterSpan w fuel span r w' :
    run w ->
    RegisterSpan page_size fuel span w = Done r w' ->
    run w'
| run_CreateNewRegistry w registry r w' :
    run w ->
    (registry = registry_ w ->
     state registry = to_underlying Inactive \/
     state registry = to_underlying Full) ->
    CreateNewRegistry page_size registry w = Done r w' ->
    run w'
| run_Allocate w fuel n r w' :
    run w ->
    Allocate page_size fuel n w = Done r w' ->
    run w'
| run_Release w p r w' :
    run w ->
    Release page_size p w = Done r w' ->
    run w'.

(** The invariant of the runs: every header that ever was is well-formed,
    and the cell, while [Inactive], names no older registry. *)
Definition Inv (w : World) : Prop :=
  (forall r, In r (headers_of w) -> header_ok (trace w) r) /\
  (state (registry_ w) = to_underlying Inactive ->
   next_registry (registry_ w) = 0).

(** Every slot of the current registry lies in mapped memory. *)
Fixpoint slots_mapped (n : nat) (i : Z) (span_set : Z) (w : World) : bool :=
  match n with
  | O => true
  | S n' => mapped w ((span_set + sizeof_Span * i) / page_size)
            && slots_mapped n' (i + 1) span_set w
  end.


End Invariant.

(** What a step of the platform or a store leaves alone: the cell, the
    history of the cell and the oracle of the compare-exchanges; the events
    so far stay in the trace. *)
Definition quiet (w w' : World) : Prop :=
  registry_ w' = registry_ w /\
  headers_of_trace (trace w') = headers_of_trace (trace w) /\
  cas_oracle w' = cas_oracle w /\
  (forall e, In e (trace w) -> In e (trace w')).

(** How far [RegisterSpan] is from its return: the spurious failures left
    in the oracle, the reservation of a slot, and before it the installation
    of a registry when the current one takes no span. *)
Definition turns (w : World) : nat :=
  length (cas_oracle w) +
  (if (state (registry_ w) =? to_underlying Inactive)
      || (state (registry_ w) =? to_underlying Full)
   then 2 else 1).

(** A platform that hands out the pages [4096], [8192], ... one after the
    other, and a provider on it after [k] calls of [Allocate(1)]. *)
Definition bases (k : nat) : list (option Z) :=
  map (fun i => Some (Z.of_nat (S i) * 4096)) (seq 0 k).

Fixpoint allocations (k : nat) (w : World) : World :=
  match k with
  | O => w
  | S k' => allocations k' (world_after (Allocate 4096 3 1 w) w)
  end.

(** [k] calls of [RegisterSpan] with the span [span], one after the other,
    on a platform with pages of [page_size] bytes; the result tells whether
    all of them succeeded. *)
Fixpoint registrations (page_size : Z) (k : nat) (span : Span) : M bool :=
  match k with
  | O => ret true
  | S k' =>
      do r <- RegisterSpan page_size 3 span;
      do ok <- registrations page_size k' span;
      ret (negb (has_error r) && ok)
  end.

End PageFacts.

(** ** For the block manager *)

Module BlockFacts.
Import Block.

(** The limit policy an [Options] stands for. *)
Definition limit_of (o : Options) : BlocksMust :=
  if must_contain_size_bytes_in_space o
  then HaveAtLeastSizeBytes else NoMoreThanSizeBytes.

End BlockFacts.

(** ** For the bump allocator *)

Module BumpFacts.
Import Bump.

(** [chain hs a l]: following [next] from the chunk at [a] through the live
    headers [hs] visits the chunks [l], in this order, and then null. *)
Inductive chain (hs : gmap Z ChunkHeader) : Z -> list Z -> Prop :=
| chain_null : chain hs 0 []
| chain_next a hd l :
    a <> 0 ->
    hs !! a = Some hd ->
    chain hs (next hd) l ->
    chain hs a (a :: l).

(** The platform accepts the next [k] releases. *)
Fixpoint releases_ok (k : nat) (ro : list bool) : bool :=
  match k with
  | O => true
  | S k' => fst (Util.next_bool ro) && releases_ok k' (snd (Util.next_bool ro))
  end.

(** [Bump<T, SizeT<48>>] for a [T] of alignment 8, on a platform with pages
    of 4096 bytes and chunk headers of 16 bytes: chunks of 64 bytes. *)
Definition small : Template :=
  {| alignment_of_T := 8; AlignmentT := 0; SizeT := 48;
     GrowT := Block.GrowStorage |}.

Definition value {A} (o : Outcome (A * Bump * Heap)) : option A :=
  match o with Done (a, _, _) => Some a | _ => None end.

Definition bump_after {A} (o : Outcome (A * Bump * Heap)) : Bump :=
  match o with Done (_, b, _) => b | _ => Bump_new end.

Definition heap_after {A} (o : Outcome (A * Bump * Heap)) (d : Heap) : Heap :=
  match o with Done (_, _, h) => h | _ => d end.

End BumpFacts.

(** ** The steps of the page provider *)

Module PageSteps.
Import Page PageFacts.

(** The header [CreateNewRegistry] builds over the header [registry] for
    pages fetched at [b]. *)
Definition created (registry : Registry) (b : Z) : Registry :=
  {| self_address := Util.bits 48 b;
     next_slot := Util.bits 12 (sizeof_Registry / sizeof_Span);
     next_registry :=
       if negb (state registry =? to_underlying Inactive)
       then self_address registry
       else next_registry registry;
     state := to_underlying Empty;
     _padding := _padding registry |}.

Section Slots.

Variable page_size : Z.

(** The spans held by [n] slots from slot [i] on of the span set at
    [span_set]. *)
Fixpoint spans_from (n : nat) (i : Z) (span_set : Z) (w : World) : list Span :=
  match n with
  | O => []
  | S n' => Span_of_word (cells w (span_set + sizeof_Span * i))
            :: spans_from n' (i + 1) span_set w
  end.

(** The spans in the slots of the registry [reg], the slots of its header
    left out. *)
Definition spans_of (reg : Registry) (w : World) : list Span :=
  spans_from (Z.to_nat (kSpanSetEnd page_size - kSpanSetStart))
             kSpanSetStart (self_address reg) w.

(** The header [RegisterSpan] builds over [registry] to reserve a slot. *)
Definition reserved (registry : Registry) : Registry :=
  {| self_address := self_address registry;
     next_slot := Util.bits 12 (next_slot registry + 1);
     next_registry := next_registry registry;
     state := if Util.bits 12 (next_slot registry + 1) =? kSpanSetEnd page_size
              then to_underlying Full else to_underlying Partial;
     _padding := _padding registry |}.

(** One operation of the provider, with any arguments. *)
Inductive step : World -> World -> Prop :=
| step_RegisterSpan fuel span w r w' :
    RegisterSpan page_size fuel span w = Done r w' -> step w w'
| step_CreateNewRegistry registry w r w' :
    CreateNewRegistry page_size registry w = Done r w' -> step w w'
| step_Allocate fuel n w r w' :
    Allocate page_size fuel n w = Done r w' -> step w w'
| step_Release p w r w' :
    Release page_size p w = Done r w' -> step w w'.

(** How an operation can leave the header [r] of the cell: as it was, or
    with a registry installed over it, and with or without a slot reserved
    in the header that results. *)
Definition header_after (r r' : Registry) : Prop :=
  exists r1,
    (r1 = r \/ exists b, valid_base page_size b kRegistrySize = true /\
                         r1 = created r b) /\
    (r' = r1 \/ (state r1 <> to_underlying Inactive /\
                 state r1 <> to_underlying Full /\ r' = reserved r1)).

(** The platform refused a request. *)
Definition refused (e : Event) : bool :=
  match e with
  | EvFetch _ None => true
  | EvReturn _ false => true
  | _ => false
  end.

End Slots.

End PageSteps.

(** ** Runs of the bump allocator *)

Module BumpRuns.
Import Bump BumpFacts.

(** The addresses the platform will still hand out. *)
Fixpoint answers (ao : list (option Z)) : list Z :=
  match ao with
  | [] => []
  | Some p :: ao' => p :: answers ao'
  | None :: ao' => answers ao'
  end.

(** The platform hands out memory that is not in use: its answers differ
    from one another and from the chunks that are live. *)
Definition fresh_answers (h : Heap) : Prop :=
  NoDup (answers (alloc_oracle h)) /\
  forall p, In p (answers (alloc_oracle h)) -> headers h !! p = None.

(** The allocator [b] owns the chunks [l] of the heap [h]: they are the
    chain from its head, and the last of them is its current chunk. *)
Definition owns (b : Bump) (h : Heap) (l : list Z) : Prop :=
  chain (headers h) (chunks_ b) l /\
  (chunks_ b <> 0 -> last l = Some (current_ b)).

(** What a call leaves of the ownership of the chunks: the allocator owns
    its old chunks and the chunks [l2] it has just got from the platform,
    and nothing else on the heap has changed. *)
Definition extends (b : Bump) (h : Heap) (l : list Z)
    (b' : Bump) (h' : Heap) (l2 : list Z) : Prop :=
  owns b' h' (l ++ l2) /\
  fresh_answers h' /\
  (forall x, In x l2 -> In x (answers (alloc_oracle h))) /\
  (forall x, In x (answers (alloc_oracle h')) ->
             In x (answers (alloc_oracle h))) /\
  (forall x, ~ In x (l ++ l2) -> headers h' !! x = headers h !! x) /\
  release_oracle h' = release_oracle h.

(** Two allocators are alike when they differ at most in a current-chunk
    pointer that goes with a null head. *)
Definition alike (b1 b2 : Bump) : Prop :=
  offset_ b1 = offset_ b2 /\ chunks_ b1 = chunks_ b2 /\
  (chunks_ b1 <> 0 -> current_ b1 = current_ b2).

(** What a caller sees of a run: what is returned and the heap. *)
Definition observe {A} (o : Outcome (A * Bump * Heap)) : Outcome (A * Heap) :=
  match o with
  | Done (a, _, h) => Done (a, h)
  | Fault => Fault
  | OutOfFuel => OutOfFuel
  end.

(** The platform accepts every release it is still asked for. *)
Definition accepts_releases (h : Heap) : bool :=
  forallb (fun ok : bool => ok) (release_oracle h).

Section Allocator.

Variables (page hdr : Z) (T : Template).

(** The offset of an allocator is within the payload of a chunk and a
    multiple of the alignment. *)
Definition offset_ok (b : Bump) : Prop :=
  0 <= offset_ b <= AlignedSize_ hdr T - hdr /\
  offset_ b mod Alignment_ T = 0.

(** Calls of [allocate], one after the other: the pointers they return,
    and the allocator and the heap they leave. *)
Fixpoint allocates (ns : list Z) (b : Bump) (h : Heap)
    : Outcome (list Z * Bump * Heap) :=
  match ns with
  | [] => Done ([], b, h)
  | n :: ns' =>
      match allocate page hdr T n b h with
      | Done (p, b', h') =>
          match allocates ns' b' h' with
          | Done (ps, b'', h'') => Done (p :: ps, b'', h'')
          | Fault => Fault
          | OutOfFuel => OutOfFuel
          end
      | Fault => Fault
      | OutOfFuel => OutOfFuel
      end
  end.

End Allocator.

(** [Bump<T, SizeT<48>, GrowT<WhenFull::ReturnNull>>], with chunks of 64
    bytes as [small]. *)
Definition fixed : Template :=
  {| alignment_of_T := 8; AlignmentT := 0; SizeT := 48;
     GrowT := Block.ReturnNull |}.

End BumpRuns.

(** * Properties of the page provider *)

Module PageProofs.
Import Page PageFacts.

Lemma Registry_eqb_eq a b : Registry_eqb a b = true -> a = b.
Proof.
  unfold Registry_eqb. destruct a, b; cbn.
  rewrite !andb_true_iff, !Z.eqb_eq. intros [[[[-> ->] ->] ->] ->]. reflexivity.
Qed.

Lemma Registry_eqb_refl a : Registry_eqb a a = true.
Proof. unfold Registry_eqb. rewrite !Z.eqb_refl. reflexivity. Qed.

(** The word of a span holds its two bit-fields apart: reading a stored
    span gives back what the bit-fields took. *)
Lemma Span_of_to_word s :
  Span_of_word (Span_to_word s)
  = {| address := Util.bits 48 (address s); count := Util.bits 16 (count s) |}.
Proof.
  unfold Span_of_word, Span_to_word, Util.bits, Util.wrap64.
  set (a := address s mod 2 ^ 48). set (c := count s mod 2 ^ 16).
  assert (Ha : 0 <= a < 2 ^ 48) by (apply Z.mod_pos_bound; lia).
  assert (Hc : 0 <= c < 2 ^ 16) by (apply Z.mod_pos_bound; lia).
  f_equal.
  - rewrite Z.land_lor_distr_l, !Z.land_ones by lia.
    rewrite Z.shiftl_mul_pow2, Z.mod_mul by lia.
    rewrite Z.mod_small by lia. apply Z.lor_0_r.
  - rewrite <- Z.land_ones by lia. rewrite Z.shiftr_land, Z.shiftr_lor.
    rewrite Z.shiftr_shiftl_l by lia. rewrite Z.shiftr_div_pow2 by lia.
    rewrite Z.div_small by lia. cbn [Z.sub Z.opp Z.pos_sub Z.add].
    change (48 - 48) with 0. rewrite Z.shiftl_0_r, Z.lor_0_l.
    change (Z.shiftr (Z.ones 64) 48) with (Z.ones 16).
    rewrite Z.land_ones by lia. apply Z.mod_small. lia.
Qed.

Section Provider.

Variable ps : Z.

Local Abbreviation Inv := (PageFacts.Inv ps).

Lemma FetchPages_quiet n w r w' :
  FetchPages ps n w = Done r w' -> quiet w w'.
Proof.
  unfold FetchPages. destruct (next_fetch w) as [[b|] rest].
  - destruct (valid_base ps b n); intros [= <- <-]; unfold quiet; cbn; auto.
  - intros [= <- <-]; unfold quiet; cbn; auto.
Qed.

Lemma ReturnPages_quiet r w x w' :
  ReturnPages ps r w = Done x w' -> quiet w w'.
Proof.
  unfold ReturnPages. destruct (Util.next_bool (return_oracle w)) as [[|] rest];
    intros [= <- <-]; unfold quiet; cbn; auto.
Qed.

Lemma store_quiet a v w x w' : store ps a v w = Done x w' -> quiet w w'.
Proof.
  unfold store. destruct (mapped w (a / ps)); [|discriminate].
  intros [= <- <-]; unfold quiet; cbn; auto.
Qed.


Lemma compare_exchange_weak_cases e d w b w' :
  compare_exchange_weak e d w = Done b w' ->
  (b = true /\ registry_ w = e /\ registry_ w' = d /\
   trace w' = EvCas e d :: trace w /\
   (length (cas_oracle w') <= length (cas_oracle w))%nat) \/
  (b = false /\ registry_ w' = registry_ w /\ trace w' = trace w /\
   (registry_ w = e ->
    (S (length (cas_oracle w')) = length (cas_oracle w))%nat)).
Proof.
  unfold compare_exchange_weak, Util.next_bool.
  assert (Hne : registry_ w = e -> Registry_eqb (registry_ w) e = false -> False).
  { intros E H. rewrite E, Registry_eqb_refl in H. discriminate. }
  destruct (cas_oracle w) as [|[|] rest] eqn:Ho; cbn [andb];
    [destruct (Registry_eqb (registry_ w) e) eqn:He
    |destruct (Registry_eqb (registry_ w) e) eqn:He
    |];
    intros [= <- <-]; cbn;
    try (left; apply Registry_eqb_eq in He; repeat split; auto; lia);
    right; repeat split; auto; intros E; exfalso; eauto.
Qed.

(** A header that is well-formed stays so when the history grows. *)
Lemma header_ok_mono tr tr' r :
  (forall e, In e tr -> In e tr') -> header_ok ps tr r -> header_ok ps tr' r.
Proof.
  unfold header_ok. intros Hsub H Hs. destruct (H Hs) as (H1 & H2 & H3).
  repeat split; try tauto.
  destruct H3 as [H3 | (old & new & Hin & Ho & Ha)]; [now left|].
  right. exists old, new. auto.
Qed.

Lemma Inv_quiet w w' : quiet w w' -> Inv w -> Inv w'.
Proof.
  intros (Hr & Hh & _ & Ht) [H1 H2]. split.
  - intros r Hin. apply header_ok_mono with (tr := trace w); auto.
    apply H1. unfold headers_of in *. rewrite Hr, Hh in Hin. exact Hin.
  - rewrite Hr. exact H2.
Qed.

Lemma Inv_fresh fo ro co : Inv (fresh fo ro co).
Proof.
  split.
  - intros r [<- | []]. intros H. exfalso. apply H. reflexivity.
  - reflexivity.
Qed.

(** Installing a well-formed header over the current one keeps the
    invariant. *)
Lemma Inv_install w w' d :
  Inv w ->
  registry_ w' = d ->
  trace w' = EvCas (registry_ w) d :: trace w ->
  header_ok ps (trace w') d ->
  state d <> to_underlying Inactive ->
  Inv w'.
Proof.
  intros [H1 H2] Hr Ht Hd Hs. split.
  - intros r. unfold headers_of. rewrite Hr, Ht. cbn.
    assert (Hsub : forall e, In e (trace w) -> In e (trace w')).
    { rewrite Ht. intros e He. now right. }
    rewrite <- Ht.
    intros [<- | [<- | [<- | Hin]]]; auto;
      apply header_ok_mono with (tr := trace w); auto; apply H1;
      unfold headers_of; cbn; auto.
  - rewrite Hr. intros; contradiction.
Qed.

Section Registry.

(** The slots after the header are at least one, and their indices fit
    the 12 bits of [next_slot]. *)
Hypothesis slots_fit : kSpanSetStart < kSpanSetEnd ps < 2 ^ 12.

(** The header [CreateNewRegistry] builds over a header [reg] that is
    [Inactive] or [Full]. *)
Lemma created_header_ok tr reg b d :
  d = {| self_address := Util.bits 48 b;
         next_slot := Util.bits 12 (sizeof_Registry / sizeof_Span);
         next_registry :=
           if negb (state reg =? to_underlying Inactive)
           then self_address reg else next_registry reg;
         state := to_underlying Empty;
         _padding := _padding reg |} ->
  (state reg = to_underlying Inactive -> next_registry reg = 0) ->
  state reg = to_underlying Inactive \/ state reg = to_underlying Full ->
  In (EvCas reg d) tr ->
  header_ok ps tr d.
Proof.
  intros Hd Hz Hst Hin _. pose proof slots_fit as Hfit.
  change kSpanSetStart with 2 in *.
  assert (Hn : next_slot d = 2) by (rewrite Hd; reflexivity).
  assert (Hs : state d = 1) by (rewrite Hd; reflexivity).
  rewrite Hn, Hs. split; [lia|]. split.
  - cbn. lia.
  - destruct Hst as [Hi | Hf].
    + left. rewrite Hd. cbn [next_registry]. rewrite Hi. cbn. auto.
    + right. exists reg, d. repeat split; auto.
      rewrite Hd. cbn [next_registry]. rewrite Hf. reflexivity.
Qed.

Lemma CreateNewRegistry_Inv w registry r w' :
  Inv w ->
  (registry = registry_ w ->
   state registry = to_underlying Inactive \/
   state registry = to_underlying Full) ->
  CreateNewRegistry ps registry w = Done r w' ->
  Inv w'.
Proof.
  intros HI Hst. unfold CreateNewRegistry, bind.
  destruct (FetchPages ps kRegistrySize w) as [[range|e] w1| |] eqn:Hf;
    try discriminate.
  2:{ intros [= <- <-]. eapply Inv_quiet; eauto using FetchPages_quiet. }
  pose proof (FetchPages_quiet _ _ _ _ Hf) as Hq.
  pose proof (Inv_quiet _ _ Hq HI) as HI1.
  match goal with
  | |- context [compare_exchange_weak _ ?x w1] => remember x as d eqn:Hd
  end.
  destruct (compare_exchange_weak _ d w1) as [b w2| |] eqn:Hc; try discriminate.
  apply compare_exchange_weak_cases in Hc.
  destruct Hq as (Hq1 & _).
  destruct Hc as [(-> & He & Hr & Ht & _) | (-> & Hr & Ht & _)]; cbn [negb].
  - intros [= <- <-]. rewrite Hq1 in He. symmetry in He.
    specialize (Hst He). subst registry.
    apply Inv_install with (w := w1) (d := d); auto.
    + rewrite Hq1. exact Ht.
    + eapply created_header_ok; eauto.
      * apply HI.
      * rewrite Ht. now left.
    + rewrite Hd. discriminate.
  - destruct (ReturnPages ps range w2) as [x w3| |] eqn:Hrp; try discriminate.
    assert (Inv w2).
    { destruct HI1 as [A B]. split.
      - unfold headers_of. rewrite Hr, Ht. exact A.
      - rewrite Hr. exact B. }
    destruct (has_error x); intros [= <- <-];
      eapply Inv_quiet; eauto using ReturnPages_quiet.
Qed.

(** The header [RegisterSpan] builds when it reserves a slot. *)
Lemma bumped_header_ok tr reg d :
  d = {| self_address := self_address reg;
         next_slot := Util.bits 12 (next_slot reg + 1);
         next_registry := next_registry reg;
         state := if Util.bits 12 (next_slot reg + 1) =? kSpanSetEnd ps
                  then to_underlying Full else to_underlying Partial;
         _padding := _padding reg |} ->
  header_ok ps tr reg ->
  state reg <> to_underlying Inactive ->
  state reg <> to_underlying Full ->
  header_ok ps tr d.
Proof.
  intros Hd Hok Hi Hf _. pose proof slots_fit as Hfit.
  destruct (Hok Hi) as (Hr & Hfull & Hnext).
  change kSpanSetStart with 2 in *.
  assert (Hlt : next_slot reg < kSpanSetEnd ps).
  { destruct (Z.eq_dec (next_slot reg) (kSpanSetEnd ps)) as [E|E]; [|lia].
    apply Hfull in E. contradiction. }
  assert (Hn : next_slot d = next_slot reg + 1).
  { rewrite Hd. cbn [next_slot]. unfold Util.bits.
    apply Z.mod_small. lia. }
  split; [lia|]. split.
  - rewrite Hn. rewrite Hd. cbn [state]. unfold Util.bits.
    rewrite (Z.mod_small (next_slot reg + 1)) by lia.
    destruct (Z.eqb_spec (next_slot reg + 1) (kSpanSetEnd ps)); cbn.
    + tauto.
    + split; [discriminate | contradiction].
  - rewrite Hd. cbn [next_registry]. exact Hnext.
Qed.

Lemma RegisterSpan_Inv fuel : forall span w r w',
  Inv w -> RegisterSpan ps fuel span w = Done r w' -> Inv w'.
Proof.
  induction fuel as [|fuel IH]; intros span w r w' HI; [discriminate|].
  cbn [RegisterSpan]. unfold bind at 1. unfold load_registry at 1.
  destruct (state (registry_ w) =? to_underlying Inactive) eqn:Ei.
  { apply Z.eqb_eq in Ei. unfold bind.
    destruct (CreateNewRegistry ps (registry_ w) w) as [[[]|e] w1| |] eqn:Hc;
      try discriminate.
    - apply IH. eapply CreateNewRegistry_Inv; eauto.
    - intros [= <- <-]. eapply CreateNewRegistry_Inv; eauto. }
  destruct (state (registry_ w) =? to_underlying Full) eqn:Ef.
  { apply Z.eqb_eq in Ef. unfold bind.
    destruct (CreateNewRegistry ps (registry_ w) w) as [[[]|e] w1| |] eqn:Hc;
      try discriminate.
    - apply IH. eapply CreateNewRegistry_Inv; eauto.
    - intros [= <- <-]. eapply CreateNewRegistry_Inv; eauto. }
  apply Z.eqb_neq in Ei, Ef.
  match goal with
  | |- context [compare_exchange_weak _ ?x] => remember x as d eqn:Hd
  end.
  unfold bind.
  destruct (compare_exchange_weak (registry_ w) d w) as [b w1| |] eqn:Hc;
    try discriminate.
  apply compare_exchange_weak_cases in Hc.
  destruct Hc as [(-> & _ & Hr & Ht & _) | (-> & Hr & Ht & _)].
  - assert (HI1 : Inv w1).
    { apply Inv_install with (w := w) (d := d); auto.
      - eapply bumped_header_ok; eauto.
        apply header_ok_mono with (tr := trace w).
        + rewrite Ht. intros e He. now right.
        + apply HI. now left.
      - rewrite Hd. cbn [state]. destruct (_ =? _); discriminate. }
    destruct (store ps _ _ w1) as [x w2| |] eqn:Hs; try discriminate.
    intros [= <- <-]. eapply Inv_quiet; eauto using store_quiet.
  - apply IH. destruct HI as [A B]. split.
    + unfold headers_of. rewrite Hr, Ht. exact A.
    + rewrite Hr. exact B.
Qed.

(** A search reads memory and changes nothing. *)
Lemma FindSpan_loop_pure n : forall i ss p w r w',
  FindSpan_loop ps n i ss p w = Done r w' -> w' = w.
Proof.
  induction n as [|n IH]; intros i ss p w r w'; cbn [FindSpan_loop].
  - now intros [= _ <-].
  - unfold bind, load. destruct (mapped w _); [|discriminate].
    destruct (_ =? p); [now intros [= _ <-] | apply IH].
Qed.

Lemma Allocate_Inv fuel n w r w' :
  Inv w -> Allocate ps fuel n w = Done r w' -> Inv w'.
Proof.
  intros HI. unfold Allocate.
  destruct ((n =? 0) || (n >=? Z.shiftl 1 16)); [now intros [= _ <-]|].
  unfold bind.
  destruct (FetchPages ps n w) as [[range|e] w1| |] eqn:Hf; try discriminate.
  2:{ intros [= _ <-]. eapply Inv_quiet; eauto using FetchPages_quiet. }
  assert (HI1 : Inv w1) by (eapply Inv_quiet; eauto using FetchPages_quiet).
  destruct (RegisterSpan ps fuel _ w1) as [[[]|e] w2| |] eqn:Hr;
    try discriminate.
  - intros [= _ <-]. eapply RegisterSpan_Inv; eauto.
  - assert (HI2 : Inv w2) by (eapply RegisterSpan_Inv; eauto).
    destruct (ReturnPages ps range w2) as [x w3| |] eqn:Hrp; try discriminate.
    destruct (has_error x); intros [= _ <-];
      eapply Inv_quiet; eauto using ReturnPages_quiet.
Qed.

Lemma Release_Inv p w r w' :
  Inv w -> Release ps p w = Done r w' -> Inv w'.
Proof.
  intros HI. unfold Release. destruct (p =? 0); [now intros [= _ <-]|].
  unfold bind at 1 2. unfold load_registry at 1.
  destruct (FindSpan ps (registry_ w) p w) as [[span|] w0| |] eqn:Hfind;
    try discriminate.
  - assert (w0 = w) by (eapply FindSpan_loop_pure; exact Hfind). subst w0.
    unfold bind.
    destruct (ReturnPages ps _ w) as [x w3| |] eqn:Hrp; try discriminate.
    destruct (has_error x); intros [= _ <-];
      eapply Inv_quiet; eauto using ReturnPages_quiet.
  - assert (w0 = w) by (eapply FindSpan_loop_pure; exact Hfind). subst w0.
    now intros [= _ <-].
Qed.

(** C8, as amended: when the page size is such that the registry has a
    slot after its header and that the capacity is below [2 ^ 12], the 12
    bits of [next_slot], then over every run of [RegisterSpan], [Allocate]
    and [Release], and of [CreateNewRegistry] called as [RegisterSpan]
    calls it (on a header that, if it still is the one in the cell, is
    [Inactive] or [Full]), from a provider just constructed, every registry
    header that is not [Inactive], the one in the cell and every one the
    cell held before, has its [next_slot] between the first slot after the
    header and the capacity, is [Full] exactly when [next_slot] is the
    capacity, and has a [next_registry] that is null or the [self_address]
    of a registry that was [Full] when it was replaced. *)
Theorem registry_headers_well_formed w :
  run ps w -> forall r, In r (headers_of w) -> header_ok ps (trace w) r.
Proof.
  intros Hrun. enough (Inv w) as [H _] by exact H.
  induction Hrun.
  - apply Inv_fresh.
  - eapply RegisterSpan_Inv; eauto.
  - eapply CreateNewRegistry_Inv; eauto.
  - eapply Allocate_Inv; eauto.
  - eapply Release_Inv; eauto.
Qed.

End Registry.

(** [CreateNewRegistry] reports no error but [Internal]. *)
Lemma CreateNewRegistry_error reg w e w' :
  CreateNewRegistry ps reg w = Done (Fail e) w' -> e = Internal.
Proof.
  unfold CreateNewRegistry, bind.
  destruct (FetchPages ps kRegistrySize w) as [[range|e0] w1| |];
    try discriminate.
  - destruct (compare_exchange_weak _ _ w1) as [[|] w2| |]; cbn [negb];
      try discriminate.
    destruct (ReturnPages ps range w2) as [x w3| |]; try discriminate.
    destruct (has_error x); [|discriminate]. now intros [= <- _].
  - now intros [= <- _].
Qed.

(** Neither does [RegisterSpan]. *)
Lemma RegisterSpan_error fuel : forall span w e w',
  RegisterSpan ps fuel span w = Done (Fail e) w' -> e = Internal.
Proof.
  induction fuel as [|fuel IH]; intros span w e w'; [discriminate|].
  cbn [RegisterSpan]. unfold bind at 1. unfold load_registry at 1.
  assert (Hcreate :
    (do result <- CreateNewRegistry ps (registry_ w);
     match result with
     | Ok _ => RegisterSpan ps fuel span
     | Fail e0 => ret (Fail e0)
     end) w = Done (Fail e) w' -> e = Internal).
  { unfold bind.
    destruct (CreateNewRegistry ps (registry_ w) w) as [[[]|e0] w1| |] eqn:Hc;
      try discriminate.
    - apply IH.
    - intros [= <- _]. eapply CreateNewRegistry_error; eauto. }
  destruct (_ =? _); [exact Hcreate|].
  destruct (_ =? _); [exact Hcreate|].
  unfold bind.
  destruct (compare_exchange_weak _ _ w) as [[|] w1| |]; try discriminate.
  - destruct (store ps _ _ w1); discriminate.
  - apply IH.
Qed.

Lemma CreateNewRegistry_turns w w' :
  (state (registry_ w) =? to_underlying Inactive)
  || (state (registry_ w) =? to_underlying Full) = true ->
  CreateNewRegistry ps (registry_ w) w = Done (Ok tt) w' ->
  (turns w' < turns w)%nat.
Proof.
  intros Hst. unfold CreateNewRegistry, bind.
  destruct (FetchPages ps kRegistrySize w) as [[range|e0] w1| |] eqn:Hf;
    try discriminate.
  destruct (FetchPages_quiet _ _ _ _ Hf) as (Hr1 & _ & Ho1 & _).
  destruct (compare_exchange_weak _ _ w1) as [b w2| |] eqn:Hc; try discriminate.
  apply compare_exchange_weak_cases in Hc.
  destruct Hc as [(-> & _ & Hr & _ & Hl) | (-> & Hr & _ & Hl)]; cbn [negb].
  - intros [= <-]. unfold turns. rewrite Hst, Hr. rewrite Ho1 in Hl. cbn. lia.
  - specialize (Hl Hr1).
    destruct (ReturnPages ps range w2) as [x w3| |] eqn:Hrp; try discriminate.
    destruct (ReturnPages_quiet _ _ _ _ Hrp) as (Hr3 & _ & Ho3 & _).
    destruct (has_error x); [discriminate|]. intros [= <-].
    rewrite Ho1 in Hl. unfold turns. rewrite Hr3, Ho3, Hr, Hr1, Hst. lia.
Qed.

(** The calls of the platform and the compare-exchange always return. *)
Lemma FetchPages_done n w : exists r w', FetchPages ps n w = Done r w'.
Proof.
  unfold FetchPages. destruct (next_fetch w) as [[b|] rest];
    [destruct (valid_base ps b n)|]; eauto.
Qed.

Lemma ReturnPages_done r w : exists x w', ReturnPages ps r w = Done x w'.
Proof.
  unfold ReturnPages. destruct (Util.next_bool _) as [[|] rest]; eauto.
Qed.

Lemma compare_exchange_weak_done e d w :
  exists b w', compare_exchange_weak e d w = Done b w'.
Proof.
  unfold compare_exchange_weak. destruct (Util.next_bool _) as [sound rest].
  destruct (_ && _); eauto.
Qed.

Lemma store_not_cut a v w : store ps a v w <> OutOfFuel.
Proof. unfold store. destruct (mapped w _); discriminate. Qed.

Lemma CreateNewRegistry_done reg w :
  exists r w', CreateNewRegistry ps reg w = Done r w'.
Proof.
  unfold CreateNewRegistry, bind.
  destruct (FetchPages_done kRegistrySize w) as ([range|e] & w1 & ->);
    [|unfold ret; eauto].
  match goal with
  | |- context [compare_exchange_weak ?e ?d w1] =>
      destruct (compare_exchange_weak_done e d w1) as ([|] & w2 & ->)
  end; cbn [negb]; [unfold ret; eauto|].
  destruct (ReturnPages_done range w2) as (x & w3 & ->).
  destruct (has_error x); unfold ret; eauto.
Qed.

(** With fuel for all its turns, [RegisterSpan] is not cut off. *)
Lemma RegisterSpan_returns fuel : forall span w,
  (turns w <= fuel)%nat -> RegisterSpan ps fuel span w <> OutOfFuel.
Proof.
  induction fuel as [|fuel IH]; intros span w Hm.
  { unfold turns in Hm. destruct (_ || _); lia. }
  cbn [RegisterSpan]. unfold bind at 1. unfold load_registry at 1.
  assert (Hcreate :
    (state (registry_ w) =? to_underlying Inactive)
    || (state (registry_ w) =? to_underlying Full) = true ->
    (do result <- CreateNewRegistry ps (registry_ w);
     match result with
     | Ok _ => RegisterSpan ps fuel span
     | Fail e0 => ret (Fail e0)
     end) w <> OutOfFuel).
  { intros Hst. unfold bind.
    destruct (CreateNewRegistry ps (registry_ w) w) as [[[]|e0] w1| |] eqn:Hc.
    - apply IH. apply CreateNewRegistry_turns in Hc; auto. lia.
    - discriminate.
    - discriminate.
    - destruct (CreateNewRegistry_done (registry_ w) w) as (? & ? & ?).
      congruence. }
  destruct (state (registry_ w) =? to_underlying Inactive) eqn:Ei;
    [apply Hcreate; reflexivity|].
  destruct (state (registry_ w) =? to_underlying Full) eqn:Ef;
    [apply Hcreate; reflexivity|].
  unfold bind.
  destruct (compare_exchange_weak _ _ w) as [b w1| |] eqn:Hc.
  - apply compare_exchange_weak_cases in Hc.
    destruct Hc as [(-> & _) | (-> & Hr & _ & Hl)].
    + match goal with
      | |- context [store ps ?a ?v w1] =>
          pose proof (store_not_cut a v w1); destruct (store ps a v w1)
      end; unfold ret; congruence.
    + apply IH. specialize (Hl eq_refl). unfold turns in *.
      rewrite Hr, Ei, Ef in *. cbn in *. lia.
  - revert Hc. unfold compare_exchange_weak.
    destruct (Util.next_bool _). destruct (_ && _); discriminate.
  - intros _. revert Hc. unfold compare_exchange_weak.
    destruct (Util.next_bool _). destruct (_ && _); discriminate.
Qed.

(** With fuel for all the turns of [RegisterSpan], [Allocate] is not cut
    off. *)
Lemma Allocate_returns fuel n w :
  (turns w <= fuel)%nat -> Allocate ps fuel n w <> OutOfFuel.
Proof.
  intros Hm. unfold Allocate.
  destruct ((n =? 0) || (n >=? Z.shiftl 1 16)); [discriminate|].
  unfold bind.
  destruct (FetchPages_done n w) as ([range|e] & w1 & Hf); rewrite Hf;
    [|discriminate].
  destruct (FetchPages_quiet _ _ _ _ Hf) as (Hr & _ & Ho & _).
  assert (Hm1 : (turns w1 <= fuel)%nat)
    by (unfold turns in *; rewrite Hr, Ho; exact Hm).
  match goal with
  | |- context [RegisterSpan ps fuel ?s w1] =>
      pose proof (RegisterSpan_returns fuel s w1 Hm1);
      destruct (RegisterSpan ps fuel s w1) as [[[]|e] w2| |]
  end; try discriminate; try congruence.
  destruct (ReturnPages_done range w2) as (x & w3 & ->).
  destruct (has_error x); discriminate.
Qed.

(** C5: [Allocate(count)] returns [InvalidInput] exactly when [count] is
    zero or at least [2^16], whatever the platform answers and whatever the
    fuel; every other failure of it is [Internal]. *)
Theorem Allocate_InvalidInput_iff fuel n w :
  (exists w', Allocate ps fuel n w = Done (Fail InvalidInput) w') <->
  (n = 0 \/ 2 ^ 16 <= n).
Proof.
  unfold Allocate. change (Z.shiftl 1 16) with (2 ^ 16).
  destruct ((n =? 0) || (n >=? 2 ^ 16)) eqn:Hv.
  - split.
    + intros _. apply orb_true_iff in Hv.
      destruct Hv as [H | H]; [left|right]; lia.
    + intros _. exists w. reflexivity.
  - split.
    + intros [w' H]. exfalso. revert H. unfold bind.
      destruct (FetchPages ps n w) as [[range|e0] w1| |]; try discriminate.
      destruct (RegisterSpan ps fuel _ w1) as [[[]|e] w2| |] eqn:Hr;
        try discriminate.
      apply RegisterSpan_error in Hr. subst e.
      destruct (ReturnPages ps range w2) as [x w3| |]; try discriminate.
      destruct (has_error x); discriminate.
    + intros H. apply orb_false_iff in Hv. lia.
Qed.




End Provider.

Lemma registry_headers_well_formed_witness :
  let w0 := fresh [Some 8192] [] [] in
  let span := {| address := 4096; count := 1 |} in
  let w := world_after (RegisterSpan 4096 3 span w0) w0 in
  kSpanSetStart < kSpanSetEnd 4096 < 2 ^ 12 /\
  run 4096 w /\
  In (registry_ w) (headers_of w) /\
  header_ok 4096 (trace w) (registry_ w).
Proof.
  intros w0 span w.
  assert (Hfit : kSpanSetStart < kSpanSetEnd 4096 < 2 ^ 12)
    by (vm_compute; split; reflexivity).
  assert (Hrun : run 4096 w).
  { apply (run_RegisterSpan 4096 w0 3 span (Ok tt) w).
    - apply run_fresh.
    - vm_compute. reflexivity. }
  assert (Hin : In (registry_ w) (headers_of w)) by (left; reflexivity).
  split; [exact Hfit|]. split; [exact Hrun|]. split; [exact Hin|].
  exact (registry_headers_well_formed 4096 Hfit w Hrun (registry_ w) Hin).
Defined.

Lemma current_header_listed w : In (registry_ w) (headers_of w).
Proof. left. reflexivity. Qed.

(** Against C8 as stated, on its two silent conditions.  [CreateNewRegistry]
    is public and does not look at the state of the header it is given:
    called, after one [Allocate(1)], on the current header, which is
    [Partial], it installs a header whose [next_registry] is the address of
    a registry that never was [Full].  And with pages of 65536 bytes the
    capacity is [2 ^ 13] slots: after 4094 calls of [RegisterSpan], all
    successful, the 12 bits of [next_slot] have wrapped to 0, below the
    first slot after the header, in a header that is [Partial]. *)
Lemma registry_headers_ill_formed :
  (let w := allocations 1 (fresh (bases 3) [] []) in
   let w' := world_after (CreateNewRegistry 4096 (registry_ w) w) w in
   state (registry_ w) = to_underlying Partial /\
   result (CreateNewRegistry 4096 (registry_ w) w) = Some (Ok tt) /\
   In (registry_ w') (headers_of w') /\
   state (registry_ w') = to_underlying Empty /\
   next_registry (registry_ w') = self_address (registry_ w) /\
   ~ header_ok 4096 (trace w') (registry_ w')) /\
  (let span := {| address := 4096; count := 1 |} in
   let w0 := fresh [Some 65536] [] [] in
   let w := world_after (registrations 65536 4094 span w0) w0 in
   kSpanSetEnd 65536 = 2 ^ 13 /\
   result (registrations 65536 4094 span w0) = Some true /\
   In (registry_ w) (headers_of w) /\
   state (registry_ w) = to_underlying Partial /\
   next_slot (registry_ w) = 0 /\
   ~ header_ok 65536 (trace w) (registry_ w)).
Proof.
  split.
  - intros w w'.
    assert (Hst : state (registry_ w') = to_underlying Empty)
      by (vm_compute; reflexivity).
    assert (Hnr : next_registry (registry_ w') = self_address (registry_ w))
      by (vm_compute; reflexivity).
    split; [vm_compute; reflexivity|]. split; [vm_compute; reflexivity|].
    split; [apply current_header_listed|].
    split; [exact Hst|]. split; [exact Hnr|].
    intros Hok. destruct Hok as (_ & _ & [H0 | (old & new & Hin & Hfull & _)]).
    + rewrite Hst. discriminate.
    + rewrite Hnr in H0. vm_compute in H0. discriminate.
    + vm_compute in Hin.
      repeat (destruct Hin as [Hin|Hin];
              [try discriminate;
               try (injection Hin as <- _; vm_compute in Hfull; discriminate)|]).
      destruct Hin.
  - intros span w0 w.
    assert (Hst : state (registry_ w) = to_underlying Partial)
      by (vm_compute; reflexivity).
    assert (Hns : next_slot (registry_ w) = 0) by (vm_compute; reflexivity).
    split; [vm_compute; reflexivity|]. split; [vm_compute; reflexivity|].
    split; [apply current_header_listed|].
    split; [exact Hst|]. split; [exact Hns|].
    intros Hok. destruct Hok as ((Hlo & _) & _).
    + rewrite Hst. discriminate.
    + rewrite Hns in Hlo. vm_compute in Hlo. apply Hlo. reflexivity.
Qed.



(** C1, on the code: after 511 calls of [Allocate(1)] with pages of 4096
    bytes the first registry is full and a second one is current, whose
    [next_registry] is the first.  The pointer of the first allocation is
    still allocated and its span is in the older registry, yet [Release]
    of it fails with [InvalidInput]: [FindSpan] reads the current registry
    only. *)
Theorem Release_misses_span_of_older_registry :
  let w0 := fresh (bases 513) [] [] in
  let w := allocations 511 w0 in
  result (Allocate 4096 3 1 w0) = Some (Ok 4096) /\
  mapped w (4096 / 4096) = true /\
  next_registry (registry_ w) = 8192 /\
  result (FindSpan 4096 {| self_address := next_registry (registry_ w);
                           next_slot := 0; next_registry := 0; state := 0;
                           _padding := 0 |} 4096 w)
    = Some (Some {| address := 4096; count := 1 |}) /\
  result (Release 4096 4096 w) = Some (Fail InvalidInput).
Proof. vm_compute. repeat split; reflexivity. Qed.


End PageProofs.

(** * Properties of the alignment helpers and of the block manager *)

Module BlockProofs.
Import Block BlockFacts.

Section Align.
Import Util.

Lemma wrap64_small z : 0 <= z < 2 ^ 64 -> wrap64 z = z.
Proof. intros. unfold wrap64. now apply Z.mod_small. Qed.

(** The mask of a power of two [2 ^ k] clears the low [k] bits. *)
Lemma mask_pow2 k x :
  0 <= k <= 64 -> 0 <= x < 2 ^ 64 ->
  Z.land x (wrap64 (Z.lnot (wrap64 (2 ^ k - 1)))) = x / 2 ^ k * 2 ^ k.
Proof.
  intros Hk Hx.
  assert (Hp : 0 < 2 ^ k <= 2 ^ 64).
  { split; [apply Z.pow_pos_nonneg; lia | apply Z.pow_le_mono_r; lia]. }
  rewrite (wrap64_small (2 ^ k - 1)) by lia.
  replace (2 ^ k - 1) with (Z.ones k) by (rewrite Z.ones_equiv; lia).
  unfold wrap64. rewrite <- (Z.land_ones _ 64) by lia.
  rewrite (Z.land_comm (Z.lnot _)), Z.land_assoc.
  rewrite (Z.land_ones x 64) by lia. rewrite (Z.mod_small x) by lia.
  rewrite <- Z.ldiff_land.
  rewrite Z.ldiff_ones_r by lia.
  rewrite Z.shiftr_div_pow2, Z.shiftl_mul_pow2 by lia. reflexivity.
Qed.

Lemma AlignDown_pow2 k n :
  0 <= k <= 64 -> 0 <= n < 2 ^ 64 ->
  AlignDown n (2 ^ k) = n / 2 ^ k * 2 ^ k.
Proof.
  intros Hk Hn. unfold AlignDown. rewrite (wrap64_small n) by lia.
  now apply mask_pow2.
Qed.

Lemma AlignUp_pow2 k n :
  0 <= k <= 64 -> 0 <= n -> n + 2 ^ k <= 2 ^ 64 ->
  AlignUp n (2 ^ k) = (n + 2 ^ k - 1) / 2 ^ k * 2 ^ k.
Proof.
  intros Hk Hn Hs. unfold AlignUp.
  assert (Hp : 0 < 2 ^ k) by (apply Z.pow_pos_nonneg; lia).
  rewrite (wrap64_small (n + 2 ^ k - 1)) by lia.
  apply mask_pow2; lia.
Qed.

(** Rounding up gives the least multiple that is not below [n]. *)
Lemma AlignUp_bounds k n :
  0 <= k <= 64 -> 0 <= n -> n + 2 ^ k <= 2 ^ 64 ->
  n <= AlignUp n (2 ^ k) < n + 2 ^ k /\ AlignUp n (2 ^ k) mod 2 ^ k = 0.
Proof.
  intros Hk Hn Hs. rewrite AlignUp_pow2 by assumption.
  assert (Hp : 0 < 2 ^ k) by (apply Z.pow_pos_nonneg; lia).
  rewrite Z.mod_mul by lia. split; [|reflexivity].
  pose proof (Z.div_mod (n + 2 ^ k - 1) (2 ^ k) ltac:(lia)).
  pose proof (Z.mod_pos_bound (n + 2 ^ k - 1) (2 ^ k) Hp). lia.
Qed.

(** Rounding down gives the greatest multiple that is not above [n]. *)
Lemma AlignDown_bounds k n :
  0 <= k <= 64 -> 0 <= n < 2 ^ 64 ->
  n - 2 ^ k < AlignDown n (2 ^ k) <= n /\ AlignDown n (2 ^ k) mod 2 ^ k = 0.
Proof.
  intros Hk Hn. rewrite AlignDown_pow2 by assumption.
  assert (Hp : 0 < 2 ^ k) by (apply Z.pow_pos_nonneg; lia).
  rewrite Z.mod_mul by lia. split; [|reflexivity].
  pose proof (Z.div_mod n (2 ^ k) ltac:(lia)).
  pose proof (Z.mod_pos_bound n (2 ^ k) Hp). lia.
Qed.

End Align.

(** C6: the aligned block size is [AlignUp (size + header) alignment]
    under [HaveAtLeastSizeBytes] and [AlignDown size alignment] under
    [NoMoreThanSizeBytes], which are the two values of the flag that
    [kDefaultOptions] derives from the limit; with [NoMoreThanSizeBytes],
    size 4096 and alignment 4096 it is 4096, whatever the header size. *)
Theorem GetAlignedSize_by_limit hdr o least alignmentT sizeT growT grow :
  GetAlignedSize hdr o =
    match limit_of o with
    | HaveAtLeastSizeBytes =>
        Util.AlignUp (Util.wrap64 (size o + hdr)) (alignment o)
    | NoMoreThanSizeBytes =>
        Util.AlignDown (size o) (alignment o)
    end /\
  limit_of (kDefaultOptions least alignmentT sizeT
              HaveAtLeastSizeBytes growT) = HaveAtLeastSizeBytes /\
  limit_of (kDefaultOptions least alignmentT sizeT
              NoMoreThanSizeBytes growT) = NoMoreThanSizeBytes /\
  GetAlignedSize hdr
    {| alignment := 4096; size := 4096;
       must_contain_size_bytes_in_space := false;
       grow_when_full := grow |} = 4096.
Proof.
  repeat split. unfold GetAlignedSize, limit_of.
  destruct (must_contain_size_bytes_in_space o); reflexivity.
Qed.

End BlockProofs.

(** * Properties of the bump allocator *)

Module BumpProofs.
Import Bump BumpFacts.

Lemma chain_deterministic hs a l1 : forall l2,
  chain hs a l1 -> chain hs a l2 -> l1 = l2.
Proof.
  intros l2 H1. revert l2. induction H1 as [|a hd l Hne Hl Hc IH]; intros l2 H2.
  - inversion H2; subst; [reflexivity | congruence].
  - inversion H2 as [|a' hd' l' Hne' Hl' Hc']; subst; [congruence|].
    rewrite Hl in Hl'. injection Hl' as <-. f_equal. apply IH. exact Hc'.
Qed.

(** From each chunk of a chain starts a chain that is no longer. *)
Lemma chain_from_member hs a l :
  chain hs a l -> forall x, In x l ->
  exists l', chain hs x l' /\ (length l' <= length l)%nat.
Proof.
  induction 1 as [|a hd l Hne Hl Hc IH]; intros x Hin; [destruct Hin|].
  destruct Hin as [<- | Hin].
  - exists (a :: l). split; [econstructor; eauto | lia].
  - destruct (IH x Hin) as (l' & Hc' & Hlen). exists l'. split; auto. cbn. lia.
Qed.

(** A chain visits no chunk twice. *)
Lemma chain_head_fresh hs a l : chain hs a (a :: l) -> ~ In a l.
Proof.
  intros Hc Hin. inversion Hc as [|a' hd l' Hne Hl Hc']; subst.
  destruct (chain_from_member _ _ _ Hc' a Hin) as (l2 & Hc2 & Hlen).
  pose proof (chain_deterministic _ _ _ _ Hc Hc2) as <-. cbn in Hlen. lia.
Qed.

Lemma chain_delete hs x a l :
  chain hs a l -> ~ In x l -> chain (delete x hs) a l.
Proof.
  induction 1 as [|a hd l Hne Hl Hc IH]; intros Hx; [constructor|].
  econstructor; eauto.
  - rewrite lookup_delete_ne; [eassumption|]. intros ->. apply Hx. now left.
  - apply IH. intros Hin. apply Hx. now right.
Qed.

Lemma chain_length hs a l : chain hs a l -> (length l <= stdpp.base.size hs)%nat.
Proof.
  revert hs a. induction l as [|x l IH]; intros hs a Hc; [cbn; lia|].
  pose proof Hc as Hc0.
  inversion Hc as [|a' hd l' Hne Hl Hc']; subst.
  apply chain_head_fresh in Hc0.
  apply (chain_delete _ x) in Hc'; [|exact Hc0].
  apply IH in Hc'. rewrite map_size_delete, Hl in Hc'. cbn in *.
  assert (stdpp.base.size hs <> 0%nat).
  { eapply map_size_ne_0_lookup_2. eauto. }
  lia.
Qed.

(** The walk over a chain, given fuel for its length. *)
Lemma ReleaseChunks_walk_chain release l : forall fuel a h,
  chain (headers h) a l ->
  (length l < fuel)%nat ->
  exists h',
    ReleaseChunks_walk fuel a release h = Done h' /\
    alloc_oracle h' = alloc_oracle h /\
    (releases_ok (length l) (release_oracle h) = true ->
     (forall x, In x l -> headers h' !! x = None) /\
     (forall x, ~ In x l -> headers h' !! x = headers h !! x)).
Proof.
  induction l as [|y l IH]; intros fuel a h Hc Hf.
  - inversion Hc; subst. destruct fuel; [cbn in Hf; lia|]. cbn.
    exists h. repeat split; auto. intros x [].
  - inversion Hc as [|a' hd l' Hne Hl Hc']; subst.
    pose proof (chain_head_fresh _ _ _ Hc) as Hfresh.
    destruct fuel as [|fuel]; [cbn in Hf; lia|]. cbn [ReleaseChunks_walk].
    destruct (Z.eqb_spec y 0); [contradiction|]. rewrite Hl.
    cbn [releases_ok length].
    destruct (Util.next_bool (release_oracle h)) as [[|] rest]; cbn [fst snd andb].
    + destruct (IH fuel (next hd)
                  {| headers := delete y (headers h);
                     alloc_oracle := alloc_oracle h; release_oracle := rest;
                     log := EvRelease release y true :: log h |})
        as (h' & Hw & Ha & Hh).
      * cbn. apply chain_delete; assumption.
      * cbn in Hf. lia.
      * exists h'. split; [exact Hw|]. split; [exact Ha|].
        intros Hok. destruct (Hh Hok) as [Hin Hout]. cbn [headers] in Hout.
        split; intros x Hx.
        -- destruct (in_dec Z.eq_dec x l) as [Hl'|Hl']; [now apply Hin|].
           destruct Hx as [<-|Hx]; [|contradiction].
           rewrite (Hout y Hl'). apply lookup_delete_eq.
        -- rewrite Hout by (intros ?; apply Hx; now right).
           apply lookup_delete_ne. intros ->. apply Hx. now left.
    + eexists. split; [reflexivity|]. split; [reflexivity|]. discriminate.
Qed.

(** The walk is never cut off by its fuel. *)
Lemma ReleaseChunks_walk_total release fuel : forall a h,
  (stdpp.base.size (headers h) < fuel)%nat ->
  ReleaseChunks_walk fuel a release h <> OutOfFuel.
Proof.
  induction fuel as [|fuel IH]; intros a h Hf; [lia|]. cbn.
  destruct (a =? 0); [discriminate|].
  destruct (headers h !! a) as [hd|] eqn:Hl; [|discriminate].
  destruct (Util.next_bool _) as [[|] rest]; [|discriminate].
  apply IH. cbn. rewrite map_size_delete, Hl. cbn.
  assert (stdpp.base.size (headers h) <> 0%nat).
  { eapply map_size_ne_0_lookup_2. eauto. }
  lia.
Qed.

Section Allocator.

Variables (page hdr : Z) (T : Template).

(** C4, as amended: when the chunks of the allocator form a chain that
    ends in null, [Reset] returns with the offset at zero and the head
    pointer cleared, and leaves the current-chunk pointer as it was; when
    the platform accepts the releases, every chunk of the chain has been
    released and no other chunk has. *)
Theorem Reset_clears_offset_and_head b h l :
  chain (headers h) (chunks_ b) l ->
  exists b' h',
    Reset page hdr T b h = Done (b', h') /\
    offset_ b' = 0 /\ chunks_ b' = 0 /\ current_ b' = current_ b /\
    (releases_ok (length l) (release_oracle h) = true ->
     (forall x, In x l -> headers h' !! x = None) /\
     (forall x, ~ In x l -> headers h' !! x = headers h !! x)).
Proof.
  intros Hc. unfold Reset. cbn [chunks_ offset_ current_].
  destruct (Z.eqb_spec (chunks_ b) 0) as [E|E]; cbn [negb].
  - rewrite E in Hc. inversion Hc; subst; [|congruence].
    do 2 eexists. split; [reflexivity|]. cbn. repeat split; auto.
    intros x [].
  - unfold ReleaseChunks, internal_ReleaseChunks.
    destruct (ReleaseChunks_walk_chain
                (if IsPageMultiple page hdr T then ReleasePages else ReleaseBytes)
                l (S (stdpp.base.size (headers h))) (chunks_ b) h Hc)
      as (h' & -> & _ & Hh).
    + apply chain_length in Hc. lia.
    + do 2 eexists. split; [reflexivity|]. cbn. repeat split; auto; tauto.
Qed.

(** [Reset] always returns, or reads a header that is not live. *)
Lemma Reset_total b h : Reset page hdr T b h <> OutOfFuel.
Proof.
  unfold Reset. destruct (negb _); [|discriminate].
  unfold ReleaseChunks, internal_ReleaseChunks.
  match goal with
  | |- context [ReleaseChunks_walk ?f ?a ?r ?h] =>
      pose proof (ReleaseChunks_walk_total r f a h);
      destruct (ReleaseChunks_walk f a r h)
  end; try discriminate.
  intros _. apply H; [lia | reflexivity].
Qed.

(** The pointer [Reset] leaves in [current_] is never read: an allocator
    with a null head returns the same pointer and leaves the same heap
    whatever its [current_] is. *)
Lemma allocate_ignores_stale_current n c o h :
  let stale := {| offset_ := o; chunks_ := 0; current_ := c |} in
  let clean := {| offset_ := o; chunks_ := 0; current_ := 0 |} in
  value (allocate page hdr T n stale h) = value (allocate page hdr T n clean h) /\
  heap_after (allocate page hdr T n stale h) h
  = heap_after (allocate page hdr T n clean h) h /\
  chunks_ (bump_after (allocate page hdr T n stale h))
  = chunks_ (bump_after (allocate page hdr T n clean h)).
Proof.
  intros stale clean. unfold allocate. cbn [chunks_ offset_ current_ stale clean].
  destruct (n >? AlignedSize_ hdr T); [repeat split|].
  cbn [Z.eqb]. destruct (AllocateNewChunk page hdr T h) as [chunk h1].
  destruct (chunk =? 0); repeat split.
Qed.

(** C10: the rebinding constructor gives, from any allocator and on any
    heap, the allocator a default construction gives (null head, null
    current chunk, offset zero) and leaves its argument and the heap as they
    were; the new allocator owns no chunk, so that resetting or destroying
    it releases nothing; and what it gives does not depend on its
    argument. *)
Theorem Bump_rebind_is_fresh other h :
  Bump_rebind other h = (Bump_new, other, h) /\
  offset_ Bump_new = 0 /\ chunks_ Bump_new = 0 /\ current_ Bump_new = 0 /\
  Reset page hdr T Bump_new h = Done (Bump_new, h) /\
  (forall other' h',
     fst (fst (Bump_rebind other h)) = fst (fst (Bump_rebind other' h'))).
Proof. repeat split. Qed.

End Allocator.

(** C3, on the code: with chunks of 64 bytes, of which 16 are the header,
    a first [allocate(64)] passes the check against the size of a chunk,
    does not fit the 48 bytes of payload, is served again from a second,
    freshly chained chunk at 8192 without a second check, and returns 8208:
    the 64 bytes end at 8272, past the end 8256 of the chunk.  No place in
    a chunk could take them: they are more than the payload of a chunk. *)
Theorem allocate_overruns_fresh_chunk :
  let h := empty_heap [Some 4096; Some 8192] [] in
  let r := allocate 4096 16 small 64 Bump_new h in
  AlignedSize_ 16 small = 64 /\
  64 <= AlignedSize_ 16 small /\
  value r = Some 8208 /\
  current_ (bump_after r) = 8192 /\
  headers (heap_after r h) !! 8192 = Some {| chunk_size := 64; next := 0 |} /\
  8208 + 64 > 8192 + AlignedSize_ 16 small /\
  64 > AlignedSize_ 16 small - 16.
Proof. vm_compute. repeat split; try reflexivity; discriminate. Qed.

(** Against C4 as stated: after one allocation, [Reset] leaves the
    current-chunk pointer at the chunk it has just released. *)
Lemma Reset_leaves_current :
  let h := empty_heap [Some 4096] [] in
  let r := allocate 4096 16 small 16 Bump_new h in
  value r = Some 4112 /\
  bump_after r = {| offset_ := 16; chunks_ := 4096; current_ := 4096 |} /\
  exists b' h',
    Reset 4096 16 small (bump_after r) (heap_after r h) = Done (b', h') /\
    headers h' = ∅ /\
    current_ b' = 4096 /\
    current_ b' <> 0.
Proof.
  vm_compute. repeat split. do 2 eexists. split; [reflexivity|].
  cbn. repeat split. discriminate.
Qed.

Lemma Reset_clears_offset_and_head_witness :
  let h0 := empty_heap [Some 4096] [] in
  let r := allocate 4096 16 small 16 Bump_new h0 in
  let b := bump_after r in
  let h := heap_after r h0 in
  chain (headers h) (chunks_ b) [4096] /\
  exists b' h',
    Reset 4096 16 small b h = Done (b', h') /\
    offset_ b' = 0 /\ chunks_ b' = 0 /\ current_ b' = current_ b /\
    (releases_ok (length [4096]) (release_oracle h) = true ->
     (forall x, In x [4096] -> headers h' !! x = None) /\
     (forall x, ~ In x [4096] -> headers h' !! x = headers h !! x)).
Proof.
  intros h0 r b h.
  assert (Hc : chain (headers h) (chunks_ b) [4096]).
  { apply (chain_next (headers h) 4096 {| chunk_size := 64; next := 0 |} []).
    - discriminate.
    - vm_compute. reflexivity.
    - apply chain_null. }
  split; [exact Hc|].
  exact (Reset_clears_offset_and_head 4096 16 small b h [4096] Hc).
Defined.

End BumpProofs.

(** * Further properties of the page provider *)

Module PageStepProofs.
Import Page PageFacts PageProofs PageSteps.

Section Provider.

Variable ps : Z.

(** [FindSpan] is a search for the first slot with the address asked for. *)
Lemma FindSpan_loop_find n : forall i ss p w,
  slots_mapped ps n i ss w = true ->
  FindSpan_loop ps n i ss p w
  = Done (find (fun s => address s =? p) (spans_from n i ss w)) w.
Proof.
  induction n as [|n IH]; intros i ss p w Hm; cbn [FindSpan_loop spans_from find].
  - reflexivity.
  - cbn [slots_mapped] in Hm. apply andb_true_iff in Hm. destruct Hm as [Hm1 Hm2].
    unfold bind, load. rewrite Hm1.
    destruct (_ =? p); [reflexivity|]. apply IH. exact Hm2.
Qed.

(** X1: when the slots of the registry [reg] lie in mapped memory,
    [FindSpan] returns the first of its slots with the address asked for,
    from slot [kSpanSetStart] on, or nothing when no slot of this one
    registry holds the address; it changes nothing. *)
Theorem FindSpan_finds_first_match reg p w :
  slots_mapped ps (Z.to_nat (kSpanSetEnd ps - kSpanSetStart)) kSpanSetStart
               (self_address reg) w = true ->
  FindSpan ps reg p w
  = Done (find (fun s => address s =? p) (spans_of ps reg w)) w.
Proof. intros Hm. unfold FindSpan, spans_of. now apply FindSpan_loop_find. Qed.

(** What [CreateNewRegistry] can come to: the platform has no page, or the
    header is installed, or the exchange fails and the page goes back. *)
Lemma CreateNewRegistry_outcome reg w r w' :
  CreateNewRegistry ps reg w = Done r w' ->
  (r = Fail Internal /\ registry_ w' = registry_ w /\
   (forall a, cells w' a = cells w a) /\
   (forall pg, mapped w' pg = mapped w pg) /\
   cas_oracle w' = cas_oracle w /\
   trace w' = EvFetch kRegistrySize None :: trace w) \/
  (exists b,
     valid_base ps b kRegistrySize = true /\
     r = Ok tt /\ registry_ w = reg /\ registry_ w' = created reg b /\
     (forall a, cells w' a =
        if in_range ps {| base := b; pages := kRegistrySize |} (a / ps)
        then 0 else cells w a) /\
     (forall pg, mapped w' pg =
        in_range ps {| base := b; pages := kRegistrySize |} pg || mapped w pg) /\
     trace w' = EvCas reg (created reg b)
                :: EvFetch kRegistrySize (Some b) :: trace w) \/
  (exists b (ok : bool),
     valid_base ps b kRegistrySize = true /\
     r = (if ok then Ok tt else Fail Internal) /\
     registry_ w' = registry_ w /\
     (forall a, cells w' a =
        if in_range ps {| base := b; pages := kRegistrySize |} (a / ps)
        then 0 else cells w a) /\
     (forall pg, mapped w' pg =
        if ok
        then negb (in_range ps {| base := b; pages := kRegistrySize |} pg)
             && mapped w pg
        else in_range ps {| base := b; pages := kRegistrySize |} pg
             || mapped w pg) /\
     trace w' = EvReturn {| base := b; pages := kRegistrySize |} ok
                :: EvFetch kRegistrySize (Some b) :: trace w).
Proof.
  unfold CreateNewRegistry, bind, FetchPages.
  destruct (next_fetch w) as [[b|] rest].
  2:{ intros [= <- <-]. left. cbn. repeat split; auto. }
  destruct (valid_base ps b kRegistrySize) eqn:Hv.
  2:{ intros [= <- <-]. left. cbn. repeat split; auto. }
  fold (created reg b). cbn [base].
  unfold compare_exchange_weak. cbn [cas_oracle registry_].
  destruct (Util.next_bool (cas_oracle w)) as [sound rest'].
  destruct (sound && Registry_eqb (registry_ w) reg) eqn:Hs; cbn [negb].
  - intros [= <- <-]. right. left. exists b.
    apply andb_true_iff in Hs. destruct Hs as [_ He].
    apply Registry_eqb_eq in He. cbn. repeat split; auto.
  - unfold ReturnPages. cbn [return_oracle].
    destruct (Util.next_bool (return_oracle w)) as [[|] rest'']; cbn [has_error];
      intros [= <- <-]; right; right; exists b.
    + exists true. cbn. repeat split; auto.
      intros pg. destruct (in_range ps _ pg); reflexivity.
    + exists false. cbn. repeat split; auto.
Qed.

(** A compare-exchange that fails leaves everything but its oracle. *)
Lemma compare_exchange_weak_frame e d w b w' :
  compare_exchange_weak e d w = Done b w' ->
  (forall a, cells w' a = cells w a) /\
  (forall pg, mapped w' pg = mapped w pg) /\
  fetch_oracle w' = fetch_oracle w /\ return_oracle w' = return_oracle w.
Proof.
  unfold compare_exchange_weak. destruct (Util.next_bool _) as [sound rest].
  destruct (_ && _); intros [= <- <-]; cbn; auto.
Qed.

(** A failure of [RegisterSpan] leaves the header as it was. *)
Lemma RegisterSpan_Fail_post fuel : forall span w e w',
  RegisterSpan ps fuel span w = Done (Fail e) w' ->
  registry_ w' = registry_ w /\
  (state (registry_ w) = to_underlying Inactive \/
   state (registry_ w) = to_underlying Full).
Proof.
  induction fuel as [|fuel IH]; intros span w e w'; [discriminate|].
  cbn [RegisterSpan]. unfold bind at 1. unfold load_registry at 1.
  assert (Hcreate :
    state (registry_ w) = to_underlying Inactive \/
    state (registry_ w) = to_underlying Full ->
    (do result <- CreateNewRegistry ps (registry_ w);
     match result with
     | Ok _ => RegisterSpan ps fuel span
     | Fail e0 => ret (Fail e0)
     end) w = Done (Fail e) w' ->
    registry_ w' = registry_ w /\
    (state (registry_ w) = to_underlying Inactive \/
     state (registry_ w) = to_underlying Full)).
  { intros Hst. unfold bind.
    destruct (CreateNewRegistry ps (registry_ w) w) as [r w1| |] eqn:Hc;
      try discriminate.
    apply CreateNewRegistry_outcome in Hc.
    destruct Hc as [(-> & Hr & _) | [(b & _ & -> & _ & Hr & _)
                                    | (b & ok & _ & -> & Hr & _)]].
    - intros [= _ <-]. auto.
    - intros H. apply IH in H. destruct H as [_ H]. rewrite Hr in H.
      cbn in H. destruct H; discriminate.
    - destruct ok.
      + intros H. apply IH in H. destruct H as [H _]. split; [congruence|auto].
      + intros [= _ <-]. auto. }
  destruct (state (registry_ w) =? to_underlying Inactive) eqn:Ei.
  { apply Z.eqb_eq in Ei. apply Hcreate. auto. }
  destruct (state (registry_ w) =? to_underlying Full) eqn:Ef.
  { apply Z.eqb_eq in Ef. apply Hcreate. auto. }
  unfold bind.
  destruct (compare_exchange_weak _ _ w) as [b w1| |] eqn:Hc; try discriminate.
  apply compare_exchange_weak_cases in Hc.
  destruct Hc as [(-> & _) | (-> & Hr & _)].
  - destruct (store ps _ _ w1); discriminate.
  - intros H. apply IH in H. destruct H as [H1 H2]. rewrite Hr in *.
    apply Z.eqb_neq in Ei, Ef. destruct H2; contradiction.
Qed.

(** A success of [RegisterSpan] has reserved the next slot of a header
    [reg], the current one or one installed over it, and has stored the
    span in that slot. *)
Lemma RegisterSpan_Ok_post fuel : forall span w w',
  RegisterSpan ps fuel span w = Done (Ok tt) w' ->
  exists reg,
    state reg <> to_underlying Inactive /\
    state reg <> to_underlying Full /\
    registry_ w' = reserved ps reg /\
    cells w' (self_address reg + sizeof_Span * next_slot reg)
      = Span_to_word span /\
    mapped w' ((self_address reg + sizeof_Span * next_slot reg) / ps) = true /\
    ((reg = registry_ w /\
      (forall a, cells w' a =
         if a =? self_address reg + sizeof_Span * next_slot reg
         then Span_to_word span else cells w a) /\
      (forall pg, mapped w' pg = mapped w pg)) \/
     (exists b, valid_base ps b kRegistrySize = true /\
                reg = created (registry_ w) b /\
                (state (registry_ w) = to_underlying Inactive \/
                 state (registry_ w) = to_underlying Full))).
Proof.
  induction fuel as [|fuel IH]; intros span w w'; [discriminate|].
  cbn [RegisterSpan]. unfold bind at 1. unfold load_registry at 1.
  assert (Hcreate :
    state (registry_ w) = to_underlying Inactive \/
    state (registry_ w) = to_underlying Full ->
    (do result <- CreateNewRegistry ps (registry_ w);
     match result with
     | Ok _ => RegisterSpan ps fuel span
     | Fail e0 => ret (Fail e0)
     end) w = Done (Ok tt) w' ->
    exists reg,
      state reg <> to_underlying Inactive /\
      state reg <> to_underlying Full /\
      registry_ w' = reserved ps reg /\
      cells w' (self_address reg + sizeof_Span * next_slot reg)
        = Span_to_word span /\
      mapped w' ((self_address reg + sizeof_Span * next_slot reg) / ps) = true /\
      exists b, valid_base ps b kRegistrySize = true /\
                reg = created (registry_ w) b /\
                (state (registry_ w) = to_underlying Inactive \/
                 state (registry_ w) = to_underlying Full)).
  { intros Hst. unfold bind.
    destruct (CreateNewRegistry ps (registry_ w) w) as [r w1| |] eqn:Hc;
      try discriminate.
    apply CreateNewRegistry_outcome in Hc.
    destruct Hc as [(-> & Hr & _) | [(b & Hv & -> & _ & Hr & _)
                                    | (b & ok & _ & -> & Hr & _)]].
    - discriminate.
    - intros H. apply IH in H.
      destruct H as (reg & H1 & H2 & H3 & H4 & H5 & H6).
      exists reg. repeat split; auto.
      destruct H6 as [(-> & _) | (b' & _ & _ & H6)].
      + exists b. rewrite Hr. auto.
      + rewrite Hr in H6. cbn in H6. destruct H6; discriminate.
    - destruct ok; [|discriminate].
      intros H. apply IH in H.
      destruct H as (reg & H1 & H2 & H3 & H4 & H5 & H6).
      exists reg. repeat split; auto.
      destruct H6 as [(-> & _) | (b' & Hv' & -> & H6)].
      + rewrite Hr in *. destruct Hst; contradiction.
      + exists b'. rewrite Hr. auto. }
  destruct (state (registry_ w) =? to_underlying Inactive) eqn:Ei.
  { apply Z.eqb_eq in Ei. intros H. apply Hcreate in H; auto.
    destruct H as (reg & ? & ? & ? & ? & ? & ?). exists reg. repeat split; auto. }
  destruct (state (registry_ w) =? to_underlying Full) eqn:Ef.
  { apply Z.eqb_eq in Ef. intros H. apply Hcreate in H; auto.
    destruct H as (reg & ? & ? & ? & ? & ? & ?). exists reg. repeat split; auto. }
  apply Z.eqb_neq in Ei, Ef. fold (reserved ps (registry_ w)).
  unfold bind.
  destruct (compare_exchange_weak _ _ w) as [b w1| |] eqn:Hc; try discriminate.
  pose proof (compare_exchange_weak_frame _ _ _ _ _ Hc) as (Hcells & Hmapped & _).
  apply compare_exchange_weak_cases in Hc.
  destruct Hc as [(-> & _ & Hr & _) | (-> & Hr & _)].
  - unfold store. destruct (mapped w1 _) eqn:Hm; [|discriminate].
    intros [= <-]. exists (registry_ w). cbn. rewrite Z.eqb_refl.
    repeat split; auto. left. repeat split; auto.
    intros a. rewrite Hcells. reflexivity.
  - intros H. apply IH in H.
    destruct H as (reg & H1 & H2 & H3 & H4 & H5 & H6).
    exists reg. repeat split; auto.
    destruct H6 as [(-> & H6 & H7) | (b' & _ & _ & H6)].
    + left. rewrite Hr. repeat split; auto.
      * intros a. rewrite H6, Hcells. rewrite Hr. reflexivity.
      * intros pg. rewrite H7. apply Hmapped.
    + rewrite Hr in H6. destruct H6; contradiction.
Qed.

Lemma header_after_refl r : header_after ps r r.
Proof. exists r. auto. Qed.

Lemma RegisterSpan_header fuel span w r w' :
  RegisterSpan ps fuel span w = Done r w' ->
  header_after ps (registry_ w) (registry_ w').
Proof.
  destruct r as [[]|e]; intros H.
  - apply RegisterSpan_Ok_post in H.
    destruct H as (reg & H1 & H2 & H3 & _ & _ & H6).
    exists reg. split; [|right; auto].
    destruct H6 as [(-> & _) | (b & Hv & -> & _)]; eauto.
  - apply RegisterSpan_Fail_post in H. destruct H as [-> _].
    apply header_after_refl.
Qed.

Lemma CreateNewRegistry_header reg w r w' :
  CreateNewRegistry ps reg w = Done r w' ->
  header_after ps (registry_ w) (registry_ w').
Proof.
  intros H. apply CreateNewRegistry_outcome in H.
  destruct H as [(_ & -> & _) | [(b & Hv & _ & <- & -> & _)
                                | (b & ok & _ & _ & -> & _)]];
    try apply header_after_refl.
  exists (created (registry_ w) b). split; [right; eauto | left; reflexivity].
Qed.

Lemma Allocate_header fuel n w r w' :
  Allocate ps fuel n w = Done r w' ->
  header_after ps (registry_ w) (registry_ w').
Proof.
  unfold Allocate.
  destruct ((n =? 0) || (n >=? Z.shiftl 1 16));
    [intros [= _ <-]; apply header_after_refl|].
  unfold bind.
  destruct (FetchPages ps n w) as [[range|e] w1| |] eqn:Hf; try discriminate.
  2:{ intros [= _ <-]. apply FetchPages_quiet in Hf. destruct Hf as [-> _].
      apply header_after_refl. }
  apply FetchPages_quiet in Hf. destruct Hf as [Hr1 _]. rewrite <- Hr1.
  destruct (RegisterSpan ps fuel _ w1) as [[[]|e] w2| |] eqn:Hr;
    try discriminate.
  - intros [= _ <-]. eapply RegisterSpan_header; eauto.
  - apply RegisterSpan_header in Hr.
    destruct (ReturnPages ps range w2) as [x w3| |] eqn:Hrp; try discriminate.
    apply ReturnPages_quiet in Hrp. destruct Hrp as [Hr3 _].
    destruct (has_error x); intros [= _ <-]; rewrite Hr3; exact Hr.
Qed.

Lemma Release_header p w r w' :
  Release ps p w = Done r w' -> registry_ w' = registry_ w.
Proof.
  unfold Release. destruct (p =? 0); [now intros [= _ <-]|].
  unfold bind at 1 2. unfold load_registry at 1.
  destruct (FindSpan ps (registry_ w) p w) as [[span|] w0| |] eqn:Hfind;
    try discriminate;
    (assert (w0 = w) by (eapply FindSpan_loop_pure; exact Hfind)); subst w0.
  - unfold bind.
    destruct (ReturnPages ps _ w) as [x w3| |] eqn:Hrp; try discriminate.
    apply ReturnPages_quiet in Hrp. destruct Hrp as [Hr3 _].
    destruct (has_error x); intros [= _ <-]; exact Hr3.
  - now intros [= _ <-].
Qed.

(** What an operation does to the header. *)
Lemma step_header_after w w' :
  step ps w w' -> header_after ps (registry_ w) (registry_ w').
Proof.
  intros [fuel span w0 r w0' H | reg w0 r w0' H | fuel n w0 r w0' H
         | p w0 r w0' H].
  - eapply RegisterSpan_header; eauto.
  - eapply CreateNewRegistry_header; eauto.
  - eapply Allocate_header; eauto.
  - apply Release_header in H. rewrite H. apply header_after_refl.
Qed.

(** X3: no operation of the provider makes an active registry inactive or
    drops it: after any one of [RegisterSpan], [CreateNewRegistry],
    [Allocate] and [Release] the cell holds an active header that is at the
    same address as before or names the registry that was current as its
    [next_registry]. *)
Theorem step_keeps_registry w w' :
  step ps w w' ->
  state (registry_ w) <> to_underlying Inactive ->
  state (registry_ w') <> to_underlying Inactive /\
  (self_address (registry_ w') = self_address (registry_ w) \/
   next_registry (registry_ w') = self_address (registry_ w)).
Proof.
  intros Hs Hact. apply step_header_after in Hs.
  destruct Hs as (r1 & H1 & H2).
  assert (Hr1 : state r1 <> to_underlying Inactive /\
                (self_address r1 = self_address (registry_ w) \/
                 next_registry r1 = self_address (registry_ w))).
  { destruct H1 as [-> | (b & _ & ->)]; [auto|]. split; [discriminate|].
    right. unfold created. cbn [next_registry].
    apply Z.eqb_neq in Hact. rewrite Hact. reflexivity. }
  destruct H2 as [-> | (_ & _ & ->)]; [exact Hr1|].
  destruct Hr1 as [_ Hr1]. split; [|exact Hr1].
  cbn. destruct (_ =? _); discriminate.
Qed.

(** X4: when the current header is [Inactive] or [Full], a successful
    [RegisterSpan] has installed a registry in freshly fetched pages: the
    cell holds its address, its first slot [kSpanSetStart] holds the span,
    cut to 48 and 16 bits, its [next_slot] is the slot after, and it names
    the full registry it replaces as [next_registry] (an inactive header
    hands on its own [next_registry]). *)
Theorem RegisterSpan_replaces_full_registry fuel span w w' :
  state (registry_ w) = to_underlying Inactive \/
  state (registry_ w) = to_underlying Full ->
  RegisterSpan ps fuel span w = Done (Ok tt) w' ->
  exists b,
    valid_base ps b kRegistrySize = true /\
    registry_ w' = reserved ps (created (registry_ w) b) /\
    self_address (registry_ w') = Util.bits 48 b /\
    next_slot (registry_ w') = kSpanSetStart + 1 /\
    next_registry (registry_ w') =
      (if state (registry_ w) =? to_underlying Full
       then self_address (registry_ w) else next_registry (registry_ w)) /\
    Span_of_word (cells w' (self_address (registry_ w')
                            + sizeof_Span * kSpanSetStart))
      = {| address := Util.bits 48 (address span);
           count := Util.bits 16 (count span) |}.
Proof.
  intros Hst H. apply RegisterSpan_Ok_post in H.
  destruct H as (reg & Hs1 & Hs2 & Hreg & Hcell & _ & Hwhich).
  destruct Hwhich as [(-> & _) | (b & Hv & -> & _)];
    [destruct Hst; contradiction|].
  exists b. split; [exact Hv|]. split; [exact Hreg|]. rewrite Hreg.
  cbn [reserved created self_address next_slot next_registry] in *.
  change (Util.bits 12 (sizeof_Registry / sizeof_Span)) with 2 in *.
  split; [reflexivity|]. split; [reflexivity|]. split.
  - destruct Hst as [-> | ->]; reflexivity.
  - change kSpanSetStart with 2. rewrite Hcell. apply Span_of_to_word.
Qed.

(** X5: when the current registry has a slot free, a successful
    [RegisterSpan] advances [next_slot] by one ([Full] when it reaches
    [kSpanSetEnd], [Partial] otherwise), writes the span into the slot
    [next_slot] named and into no other word, maps and fetches nothing, and
    adds nothing but compare-exchanges to the trace. *)
Theorem RegisterSpan_takes_one_slot fuel span w w' :
  state (registry_ w) <> to_underlying Inactive ->
  state (registry_ w) <> to_underlying Full ->
  RegisterSpan ps fuel span w = Done (Ok tt) w' ->
  registry_ w' = reserved ps (registry_ w) /\
  (forall a, cells w' a =
     if a =? self_address (registry_ w) + sizeof_Span * next_slot (registry_ w)
     then Span_to_word span else cells w a) /\
  (forall pg, mapped w' pg = mapped w pg) /\
  fetch_oracle w' = fetch_oracle w /\
  (forall e, In e (trace w') -> In e (trace w) \/ exists o n, e = EvCas o n).
Proof.
  revert w. induction fuel as [|fuel IH]; intros w Hi Hf; [discriminate|].
  cbn [RegisterSpan]. unfold bind at 1. unfold load_registry at 1.
  apply Z.eqb_neq in Hi, Hf. rewrite Hi, Hf. apply Z.eqb_neq in Hi, Hf.
  fold (reserved ps (registry_ w)). unfold bind.
  destruct (compare_exchange_weak _ _ w) as [b w1| |] eqn:Hc; try discriminate.
  pose proof (compare_exchange_weak_frame _ _ _ _ _ Hc)
    as (Hcells & Hmapped & Hfo & _).
  apply compare_exchange_weak_cases in Hc.
  destruct Hc as [(-> & _ & Hr & Ht & _) | (-> & Hr & Ht & _)].
  - unfold store. destruct (mapped w1 _) eqn:Hm; [|discriminate].
    intros [= <-]. cbn. repeat split; auto.
    + intros a. rewrite Hcells. reflexivity.
    + rewrite Ht. intros e [<- | He]; eauto.
  - intros H. apply IH in H; rewrite ?Hr; auto.
    destruct H as (H1 & H2 & H3 & H4 & H5).
    split; [rewrite H1, Hr; reflexivity|].
    split; [intros a; rewrite H2, Hcells, Hr; reflexivity|].
    split; [intros pg; rewrite H3; apply Hmapped|].
    split; [congruence|].
    intros e He. rewrite <- Ht. auto.
Qed.

(** X6: [Release] changes neither the cell nor a word of memory, so that
    no slot is ever cleared.  It answers [InvalidInput] exactly for the
    null pointer and for a pointer for which [FindSpan] finds no span in
    the current registry, and has then asked nothing of the platform.
    Otherwise it asks the platform once, to take back the range from the
    pointer with the count of pages of the span that [FindSpan] finds: it
    answers [Internal] when the platform refuses, and the pages stay
    mapped, and succeeds when the platform accepts, and exactly the pages
    of that range are unmapped. *)
Theorem Release_effect p w r w' :
  Release ps p w = Done r w' ->
  registry_ w' = registry_ w /\
  (forall a, cells w' a = cells w a) /\
  fetch_oracle w' = fetch_oracle w /\ cas_oracle w' = cas_oracle w /\
  match r with
  | Fail InvalidInput =>
      (p = 0 \/ FindSpan ps (registry_ w) p w = Done None w) /\
      (forall pg, mapped w' pg = mapped w pg) /\ trace w' = trace w
  | Fail Internal =>
      exists s,
        p <> 0 /\ FindSpan ps (registry_ w) p w = Done (Some s) w /\
        (forall pg, mapped w' pg = mapped w pg) /\
        trace w'
        = EvReturn {| base := p; pages := count s |} false :: trace w
  | Ok _ =>
      exists s,
        p <> 0 /\ FindSpan ps (registry_ w) p w = Done (Some s) w /\
        trace w'
        = EvReturn {| base := p; pages := count s |} true :: trace w /\
        forall pg, mapped w' pg =
          negb (in_range ps {| base := p; pages := count s |} pg)
          && mapped w pg
  end.
Proof.
  unfold Release. destruct (Z.eqb_spec p 0) as [Hp|Hp].
  { intros [= <- <-]. repeat split; auto. }
  unfold bind at 1 2. unfold load_registry at 1.
  destruct (FindSpan ps (registry_ w) p w) as [[span|] w0| |] eqn:Hfind;
    try discriminate;
    (assert (w0 = w) by (eapply FindSpan_loop_pure; exact Hfind)); subst w0.
  - unfold bind, ReturnPages.
    destruct (Util.next_bool (return_oracle w)) as [[|] rest]; cbn [has_error];
      intros [= <- <-]; cbn;
      (split; [reflexivity|]); (split; [reflexivity|]);
      (split; [reflexivity|]); (split; [reflexivity|]);
      exists span; repeat split; auto.
  - intros [= <- <-]. repeat split; auto.
Qed.

(** What the platform was asked during a call, newest first. *)
Lemma CreateNewRegistry_trace reg w r w' :
  CreateNewRegistry ps reg w = Done r w' ->
  exists new, trace w' = new ++ trace w /\
              (existsb refused new = has_error r).
Proof.
  intros H. apply CreateNewRegistry_outcome in H.
  destruct H as [(-> & _ & _ & _ & _ & ->) | [(b & _ & -> & _ & _ & _ & _ & ->)
                | (b & ok & _ & -> & _ & _ & _ & ->)]].
  - exists [EvFetch kRegistrySize None]. auto.
  - eexists [_; _]. split; [reflexivity|]. reflexivity.
  - eexists [_; _]. split; [reflexivity|]. destruct ok; reflexivity.
Qed.

Lemma RegisterSpan_trace fuel : forall span w r w',
  RegisterSpan ps fuel span w = Done r w' ->
  exists new, trace w' = new ++ trace w /\
              (existsb refused new = has_error r).
Proof.
  induction fuel as [|fuel IH]; intros span w r w'; [discriminate|].
  cbn [RegisterSpan]. unfold bind at 1. unfold load_registry at 1.
  assert (Hcreate :
    (do result <- CreateNewRegistry ps (registry_ w);
     match result with
     | Ok _ => RegisterSpan ps fuel span
     | Fail e0 => ret (Fail e0)
     end) w = Done r w' ->
    exists new, trace w' = new ++ trace w /\
                (existsb refused new = has_error r)).
  { unfold bind.
    destruct (CreateNewRegistry ps (registry_ w) w) as [[[]|e] w1| |] eqn:Hc;
      try discriminate; apply CreateNewRegistry_trace in Hc;
      destruct Hc as (new1 & Ht1 & Hx1).
    - intros H. apply IH in H. destruct H as (new2 & Ht2 & Hx2).
      exists (new2 ++ new1). rewrite Ht2, Ht1, app_assoc. split; [reflexivity|].
      rewrite existsb_app, Hx2, Hx1. apply orb_false_r.
    - intros [= <- <-]. exists new1. auto. }
  destruct (_ =? _); [exact Hcreate|].
  destruct (_ =? _); [exact Hcreate|].
  unfold bind.
  destruct (compare_exchange_weak _ _ w) as [b w1| |] eqn:Hc; try discriminate.
  apply compare_exchange_weak_cases in Hc.
  destruct Hc as [(-> & _ & _ & Ht & _) | (-> & _ & Ht & _)].
  - unfold store. destruct (mapped w1 _); [|discriminate].
    intros [= <- <-]. eexists [_]. cbn [trace]. rewrite Ht. split; reflexivity.
  - intros H. apply IH in H. rewrite Ht in H. exact H.
Qed.

(** X7: [Allocate] fails with [InvalidInput] before it has asked anything
    of the platform; it fails with [Internal] only after the platform has
    refused a request of this call (a fetch or a return of pages), and it
    succeeds only when the platform has refused none. *)
Theorem Allocate_fails_only_on_refusal fuel n w r w' :
  Allocate ps fuel n w = Done r w' ->
  exists new,
    trace w' = new ++ trace w /\
    match r with
    | Ok _ => existsb refused new = false
    | Fail InvalidInput => new = []
    | Fail Internal => existsb refused new = true
    end.
Proof.
  unfold Allocate.
  destruct ((n =? 0) || (n >=? Z.shiftl 1 16)).
  { intros [= <- <-]. exists []. auto. }
  unfold bind at 1. unfold FetchPages at 1.
  destruct (next_fetch w) as [[b|] rest].
  2:{ intros [= <- <-]. eexists [_]. split; reflexivity. }
  destruct (valid_base ps b n).
  2:{ intros [= <- <-]. eexists [_]. split; reflexivity. }
  unfold bind at 1.
  match goal with
  | |- context [RegisterSpan ps fuel ?s ?w1] =>
      destruct (RegisterSpan ps fuel s w1) as [[[]|e] w2| |] eqn:Hr;
        try discriminate
  end.
  - apply RegisterSpan_trace in Hr. destruct Hr as (new & Ht & Hx).
    intros [= <- <-]. cbn [trace] in Ht. eexists (new ++ [_]).
    rewrite <- app_assoc. split; [exact Ht|].
    rewrite existsb_app, Hx. reflexivity.
  - pose proof (RegisterSpan_error _ _ _ _ _ _ Hr) as ->.
    apply RegisterSpan_trace in Hr. destruct Hr as (new & Ht & Hx).
    cbn [trace] in Ht. unfold bind, ReturnPages.
    destruct (Util.next_bool (return_oracle w2)) as [[|] rest']; cbn [has_error];
      intros [= <- <-]; cbn [trace]; rewrite Ht; eexists (_ :: new ++ [_]);
      (split; [cbn; rewrite <- app_assoc; reflexivity|]);
      cbn [existsb]; rewrite existsb_app, Hx; cbn; auto using orb_true_r.
Qed.

(** X2: [CreateNewRegistry] ends in one of three ways.  The platform has
    no page: it fails with [Internal] and leaves the cell and the mapped
    pages as they were.  The exchange succeeds: the cell, which held the
    header passed in, now holds the header built over it, and the fetched
    page stays mapped.  The exchange fails: the cell is left as it was and
    the fetched page is given back, and the call succeeds exactly when the
    platform takes the page back. *)
Theorem CreateNewRegistry_installs_or_gives_back reg w r w' :
  CreateNewRegistry ps reg w = Done r w' ->
  (r = Fail Internal /\ registry_ w' = registry_ w /\
   (forall pg, mapped w' pg = mapped w pg) /\
   trace w' = EvFetch kRegistrySize None :: trace w) \/
  (exists b,
     r = Ok tt /\ registry_ w = reg /\ registry_ w' = created reg b /\
     (forall pg, mapped w' pg =
        in_range ps {| base := b; pages := kRegistrySize |} pg || mapped w pg) /\
     trace w' = EvCas reg (created reg b)
                :: EvFetch kRegistrySize (Some b) :: trace w) \/
  (exists b (ok : bool),
     r = (if ok then Ok tt else Fail Internal) /\
     registry_ w' = registry_ w /\
     (ok = true -> forall pg, mapped w' pg =
        negb (in_range ps {| base := b; pages := kRegistrySize |} pg)
        && mapped w pg) /\
     trace w' = EvReturn {| base := b; pages := kRegistrySize |} ok
                :: EvFetch kRegistrySize (Some b) :: trace w).
Proof.
  intros H. apply CreateNewRegistry_outcome in H.
  destruct H as [(? & ? & _ & ? & _ & ?)
                | [(b & _ & ? & ? & ? & _ & ? & ?)
                  | (b & ok & _ & ? & ? & _ & Hm & ?)]].
  - left. auto.
  - right. left. exists b. auto.
  - right. right. exists b, ok. repeat split; auto.
    intros ->. exact Hm.
Qed.

Section RoundTrip.

Hypothesis slots_fit : kSpanSetStart < kSpanSetEnd ps < 2 ^ 12.

Lemma page_size_pos : 16 < ps.
Proof.
  pose proof slots_fit as H. unfold kSpanSetEnd, kRegistrySize in H.
  change kSpanSetStart with 2 in H. change sizeof_Span with 8 in H.
  rewrite Z.mul_1_l in H. destruct H as [H _].
  destruct (Z.le_gt_cases ps 16) as [Hle|]; [|lia]. exfalso.
  destruct (Z.le_gt_cases 0 ps).
  - assert (ps / 8 <= 16 / 8) by (apply Z.div_le_mono; lia).
    change (16 / 8) with 2 in *. lia.
  - assert (ps / 8 <= 0 / 8) by (apply Z.div_le_mono; lia).
    change (0 / 8) with 0 in *. lia.
Qed.

Lemma valid_base_facts b n :
  valid_base ps b n = true -> 1 <= n ->
  0 < b < 2 ^ 48 /\ b mod ps = 0 /\ Util.bits 48 b = b.
Proof.
  unfold valid_base. rewrite !andb_true_iff. intros [[H1 H2] H3] Hn.
  pose proof page_size_pos.
  apply Z.ltb_lt in H1. apply Z.eqb_eq in H2. apply Z.leb_le in H3.
  assert (b < 2 ^ 48) by nia.
  repeat split; auto. unfold Util.bits. apply Z.mod_small. lia.
Qed.

Lemma header_after_aligned r r' :
  header_after ps r r' -> self_address r mod ps = 0 ->
  self_address r' mod ps = 0.
Proof.
  intros (r1 & H1 & H2) Ha.
  assert (self_address r1 mod ps = 0).
  { destruct H1 as [-> | (b & Hv & ->)]; [exact Ha|]. cbn [created self_address].
    apply valid_base_facts in Hv; [|unfold kRegistrySize; lia].
    destruct Hv as (_ & Hm & ->). exact Hm. }
  destruct H2 as [-> | (_ & _ & ->)]; assumption.
Qed.

(** Over the runs of the provider the current registry is page-aligned and
    the invariant of the headers holds. *)
Lemma run_aligned_Inv w :
  run ps w -> self_address (registry_ w) mod ps = 0 /\ PageFacts.Inv ps w.
Proof.
  induction 1 as [fo ro co | w fuel span r w' _ [IHa IHi] H
                 | w reg r w' _ [IHa IHi] Hst H
                 | w fuel n r w' _ [IHa IHi] H | w p r w' _ [IHa IHi] H].
  - split; [apply Z.mod_0_l; pose proof page_size_pos; lia | apply Inv_fresh].
  - split; [|eapply RegisterSpan_Inv; eauto].
    eapply header_after_aligned; eauto using RegisterSpan_header.
  - split; [|eapply CreateNewRegistry_Inv; eauto].
    eapply header_after_aligned; eauto using CreateNewRegistry_header.
  - split; [|eapply Allocate_Inv; eauto].
    eapply header_after_aligned; eauto using Allocate_header.
  - split; [|eapply Release_Inv; eauto].
    apply Release_header in H. rewrite H. exact IHa.
Qed.

(** The slots of a page-aligned registry all lie in its one page. *)
Lemma slot_page ss i :
  ss mod ps = 0 -> kSpanSetStart <= i < kSpanSetEnd ps ->
  (ss + sizeof_Span * i) / ps = ss / ps.
Proof.
  intros Ha Hi. pose proof page_size_pos as Hp.
  unfold kSpanSetEnd, kRegistrySize in Hi. change kSpanSetStart with 2 in Hi.
  change sizeof_Span with 8 in *. rewrite Z.mul_1_l in Hi.
  assert (8 * (ps / 8) <= ps) by (apply Z.mul_div_le; lia).
  assert (Hq : ss = ps * (ss / ps)) by (apply Z.div_exact; lia).
  rewrite Hq at 1. rewrite Z.mul_comm, Z.div_add_l by lia.
  rewrite (Z.div_small (8 * i)) by lia. lia.
Qed.

Lemma slots_mapped_page n : forall i ss w,
  ss mod ps = 0 ->
  kSpanSetStart <= i -> i + Z.of_nat n <= kSpanSetEnd ps ->
  mapped w (ss / ps) = true ->
  slots_mapped ps n i ss w = true.
Proof.
  induction n as [|n IH]; intros i ss w Ha Hlo Hhi Hm; [reflexivity|].
  cbn [slots_mapped]. rewrite slot_page by (auto; lia). rewrite Hm. cbn.
  apply IH; auto; lia.
Qed.

Lemma spans_from_In n : forall i ss w j,
  i <= j < i + Z.of_nat n ->
  In (Span_of_word (cells w (ss + sizeof_Span * j))) (spans_from n i ss w).
Proof.
  induction n as [|n IH]; intros i ss w j Hj; [lia|].
  cbn [spans_from]. destruct (Z.eq_dec i j) as [->|Hne]; [now left|].
  right. apply IH. lia.
Qed.

(** X8: over the runs of the provider, a pointer that [Allocate] has just
    returned is known to [Release]: [Release] does not answer
    [InvalidInput], it finds a slot with this address, asks the platform to
    take back as many pages as that slot counts, and succeeds exactly when
    the platform does. *)
Theorem Release_finds_allocated fuel n w p w1 :
  run ps w ->
  0 <= n ->
  Allocate ps fuel n w = Done (Ok p) w1 ->
  exists r w2,
    Release ps p w1 = Done r w2 /\
    (r = Ok tt \/ r = Fail Internal) /\
    exists s ok,
      find (fun s => address s =? p) (spans_of ps (registry_ w1) w1) = Some s /\
      address s = p /\
      trace w2 = EvReturn {| base := p; pages := count s |} ok :: trace w1 /\
      r = if ok then Ok tt else Fail Internal.
Proof.
  intros Hrun Hn0'. destruct (run_aligned_Inv w Hrun) as [Hal [Hinv _]].
  pose proof page_size_pos as Hp. pose proof slots_fit as Hfit.
  unfold Allocate.
  destruct ((n =? 0) || (n >=? Z.shiftl 1 16)) eqn:Hn; [discriminate|].
  apply orb_false_iff in Hn. destruct Hn as [Hn0 _]. apply Z.eqb_neq in Hn0.
  unfold bind at 1.
  destruct (FetchPages ps n w) as [[range|e] w0| |] eqn:Hf; try discriminate.
  assert (Hq : quiet w w0) by (eapply FetchPages_quiet; eauto).
  assert (Hv : valid_base ps (base range) n = true /\ 1 <= n).
  { revert Hf. unfold FetchPages. destruct (next_fetch w) as [[b|] rest];
      [|discriminate].
    destruct (valid_base ps b n) eqn:Hv; [|discriminate].
    intros [= <- _]. cbn. split; [exact Hv | lia]. }
  destruct Hv as [Hv Hn1]. apply valid_base_facts in Hv; [|exact Hn1].
  destruct Hv as (Hb & _ & Hbits).
  unfold bind at 1.
  destruct (RegisterSpan ps fuel _ w0) as [[[]|e] w1'| |] eqn:Hr;
    try discriminate.
  2:{ unfold bind. destruct (ReturnPages ps range w1'); try discriminate.
      destruct (has_error a); discriminate. }
  intros [= <- <-].
  apply RegisterSpan_Ok_post in Hr.
  destruct Hr as (reg & Hs1 & Hs2 & Hreg & Hcell & Hmap & Hwhich).
  destruct Hq as (Hq1 & Hq2 & _ & Hq4).
  (* the registry the slot was reserved in *)
  assert (Hregok : self_address reg mod ps = 0 /\
                   kSpanSetStart <= next_slot reg < kSpanSetEnd ps).
  { destruct Hwhich as [(-> & _) | (b & Hvb & -> & _)].
    - rewrite Hq1. split; [exact Hal|].
      assert (Hok : header_ok ps (trace w) (registry_ w))
        by (apply Hinv; now left).
      rewrite Hq1 in Hs1, Hs2. destruct (Hok Hs1) as (Hrange & Hfull & _).
      destruct (Z.eq_dec (next_slot (registry_ w)) (kSpanSetEnd ps)) as [E|E];
        [apply Hfull in E; contradiction | lia].
    - apply valid_base_facts in Hvb; [|unfold kRegistrySize; lia].
      destruct Hvb as (_ & Hm & Hbb). cbn [created self_address next_slot].
      rewrite Hbb. split; [exact Hm|].
      change (Util.bits 12 (sizeof_Registry / sizeof_Span)) with 2.
      change kSpanSetStart with 2 in *. lia. }
  destruct Hregok as [Hreg_al Hslot].
  assert (Hself : self_address (registry_ w1') = self_address reg)
    by (rewrite Hreg; reflexivity).
  rewrite slot_page in Hmap by assumption.
  unfold Release. replace (base range =? 0) with false
    by (symmetry; apply Z.eqb_neq; lia).
  unfold bind at 1 2. unfold load_registry at 1.
  unfold FindSpan. rewrite FindSpan_loop_find.
  2:{ rewrite Hself.
      apply slots_mapped_page; rewrite ?Z2Nat.id by lia; auto; lia. }
  fold (spans_of ps (registry_ w1') w1').
  destruct (find _ (spans_of ps (registry_ w1') w1')) as [s|] eqn:Hfind.
  - pose proof (find_some _ _ Hfind) as [_ Ha]. apply Z.eqb_eq in Ha.
    unfold bind, ReturnPages.
    destruct (Util.next_bool (return_oracle w1')) as [[|] rest]; cbn [has_error];
      unfold ret; do 2 eexists; (split; [reflexivity|]); (split; [auto|]);
      exists s; eexists; (split; [reflexivity|]); (split; [exact Ha|]);
      cbn [trace]; split; reflexivity.
  - exfalso.
    eapply find_none with (x := Span_of_word (Span_to_word
              {| address := Util.bits 48 (base range);
                 count := Util.bits 16 n |})) in Hfind.
    + rewrite Span_of_to_word in Hfind. cbn [address] in Hfind.
      rewrite !Hbits, Z.eqb_refl in Hfind. discriminate.
    + rewrite <- Hcell. unfold spans_of. rewrite Hself.
      apply spans_from_In. rewrite Z2Nat.id by lia. lia.
Qed.

Lemma spans_from_app a : forall b i ss w,
  spans_from (a + b) i ss w
  = spans_from a i ss w ++ spans_from b (i + Z.of_nat a) ss w.
Proof.
  induction a as [|a IH]; intros b i ss w.
  - cbn [spans_from Nat.add app]. rewrite Z.add_0_r. reflexivity.
  - cbn [spans_from Nat.add app]. f_equal. rewrite IH.
    f_equal. f_equal. lia.
Qed.

Lemma spans_from_ext n : forall i ss w w',
  (forall j, i <= j < i + Z.of_nat n ->
             cells w' (ss + sizeof_Span * j) = cells w (ss + sizeof_Span * j)) ->
  spans_from n i ss w' = spans_from n i ss w.
Proof.
  induction n as [|n IH]; intros i ss w w' H; [reflexivity|].
  cbn [spans_from]. rewrite H by lia. f_equal. apply IH.
  intros j Hj. apply H. lia.
Qed.

Lemma find_app_Some {A} (f : A -> bool) l1 l2 x :
  find f l1 = Some x -> find f (l1 ++ l2) = Some x.
Proof.
  induction l1 as [|y l1 IH]; [discriminate|]. cbn.
  destruct (f y); auto.
Qed.

(** X9: the slots are searched from the first on and are never cleared:
    when a slot in use of the current registry already holds the address
    that [Allocate] returns (the platform has handed out again pages that
    were released), [Release] asks the platform to take back the pages
    counted in the first such slot, whatever the count of the new
    allocation. *)
Theorem Release_returns_count_of_first_slot fuel n w p w1 s :
  run ps w ->
  0 <= n ->
  state (registry_ w) <> to_underlying Inactive ->
  state (registry_ w) <> to_underlying Full ->
  in_range ps {| base := p; pages := n |} (self_address (registry_ w) / ps)
  = false ->
  find (fun s => address s =? p)
       (spans_from (Z.to_nat (next_slot (registry_ w) - kSpanSetStart))
                   kSpanSetStart (self_address (registry_ w)) w) = Some s ->
  Allocate ps fuel n w = Done (Ok p) w1 ->
  exists r w2 ok,
    Release ps p w1 = Done r w2 /\
    trace w2 = EvReturn {| base := p; pages := count s |} ok :: trace w1.
Proof.
  intros Hrun Hn0' Hi Hfu Hout Hstale.
  destruct (run_aligned_Inv w Hrun) as [Hal [Hinv _]].
  pose proof page_size_pos as Hp. pose proof slots_fit as Hfit.
  assert (Hslot : kSpanSetStart <= next_slot (registry_ w) < kSpanSetEnd ps).
  { assert (Hok : header_ok ps (trace w) (registry_ w))
      by (apply Hinv; now left).
    destruct (Hok Hi) as (Hrange & Hfull & _).
    destruct (Z.eq_dec (next_slot (registry_ w)) (kSpanSetEnd ps)) as [E|E];
      [apply Hfull in E; contradiction | lia]. }
  unfold Allocate.
  destruct ((n =? 0) || (n >=? Z.shiftl 1 16)) eqn:Hn; [discriminate|].
  unfold bind at 1. unfold FetchPages.
  destruct (next_fetch w) as [[b|] rest]; [|discriminate].
  destruct (valid_base ps b n) eqn:Hv; [|discriminate].
  unfold bind at 1. cbn [base].
  match goal with
  | |- context [RegisterSpan ps fuel ?sp ?w0] =>
      set (w0' := w0);
      destruct (RegisterSpan ps fuel sp w0') as [[[]|e] w1'| |] eqn:Hr;
        try discriminate
  end.
  2:{ unfold bind. destruct (ReturnPages ps _ w1'); try discriminate.
      destruct (has_error a); discriminate. }
  intros [= <- <-].
  apply RegisterSpan_Ok_post in Hr.
  destruct Hr as (reg & Hs1 & Hs2 & Hreg & Hcell & Hmap & Hwhich).
  destruct Hwhich as [(-> & Hcells & _) | (b' & _ & _ & Hst)];
    [|cbn in Hst; destruct Hst; contradiction].
  cbn [w0' registry_] in *.
  assert (Hself : self_address (registry_ w1') = self_address (registry_ w))
    by (rewrite Hreg; reflexivity).
  rewrite slot_page in Hmap by assumption.
  assert (Hb0 : b <> 0).
  { unfold valid_base in Hv. rewrite !andb_true_iff in Hv.
    destruct Hv as [[Hv _] _]. apply Z.ltb_lt in Hv. lia. }
  unfold Release. apply Z.eqb_neq in Hb0. rewrite Hb0.
  unfold bind at 1 2. unfold load_registry at 1.
  unfold FindSpan. rewrite FindSpan_loop_find.
  2:{ rewrite Hself.
      apply slots_mapped_page; rewrite ?Z2Nat.id by lia; auto; lia. }
  rewrite Hself.
  replace (Z.to_nat (kSpanSetEnd ps - kSpanSetStart))
    with (Z.to_nat (next_slot (registry_ w) - kSpanSetStart)
          + Z.to_nat (kSpanSetEnd ps - next_slot (registry_ w)))%nat by lia.
  rewrite spans_from_app.
  rewrite (spans_from_ext _ _ _ w w1').
  2:{ intros j Hj. rewrite Z2Nat.id in Hj by lia. rewrite Hcells.
      replace (_ =? _) with false by (symmetry; apply Z.eqb_neq;
        change sizeof_Span with 8; lia).
      unfold w0'. cbn [cells]. rewrite slot_page by (auto; lia). rewrite Hout.
      reflexivity. }
  rewrite (find_app_Some _ _ _ _ Hstale).
  unfold bind, ReturnPages.
  destruct (Util.next_bool (return_oracle w1')) as [[|] rest']; cbn [has_error];
    unfold ret; do 3 eexists; split; reflexivity.
Qed.

End RoundTrip.

End Provider.

Lemma FindSpan_finds_first_match_witness :
  let w := allocations 1 (fresh (bases 2) [] []) in
  slots_mapped 4096 (Z.to_nat (kSpanSetEnd 4096 - kSpanSetStart)) kSpanSetStart
               (self_address (registry_ w)) w = true /\
  FindSpan 4096 (registry_ w) 4096 w
  = Done (find (fun s => address s =? 4096) (spans_of 4096 (registry_ w) w)) w.
Proof.
  intros w.
  assert (H : slots_mapped 4096 (Z.to_nat (kSpanSetEnd 4096 - kSpanSetStart))
                kSpanSetStart (self_address (registry_ w)) w = true)
    by (vm_compute; reflexivity).
  split; [exact H|].
  exact (FindSpan_finds_first_match 4096 (registry_ w) 4096 w H).
Defined.

Lemma CreateNewRegistry_installs_or_gives_back_witness :
  let w := fresh [Some 8192] [] [] in
  let r := Ok tt in
  let reg := zero_registry in
  let w' := world_after (CreateNewRegistry 4096 reg w) w in
  CreateNewRegistry 4096 reg w = Done r w' /\
  ((r = Fail Internal /\ registry_ w' = registry_ w /\
    (forall pg, mapped w' pg = mapped w pg) /\
    trace w' = EvFetch kRegistrySize None :: trace w) \/
   (exists b,
      r = Ok tt /\ registry_ w = reg /\ registry_ w' = created reg b /\
      (forall pg, mapped w' pg =
         in_range 4096 {| base := b; pages := kRegistrySize |} pg
         || mapped w pg) /\
      trace w' = EvCas reg (created reg b)
                 :: EvFetch kRegistrySize (Some b) :: trace w) \/
   (exists b (ok : bool),
      r = (if ok then Ok tt else Fail Internal) /\
      registry_ w' = registry_ w /\
      (ok = true -> forall pg, mapped w' pg =
         negb (in_range 4096 {| base := b; pages := kRegistrySize |} pg)
         && mapped w pg) /\
      trace w' = EvReturn {| base := b; pages := kRegistrySize |} ok
                 :: EvFetch kRegistrySize (Some b) :: trace w)).
Proof.
  intros w r reg w'.
  assert (H : CreateNewRegistry 4096 reg w = Done r w')
    by reflexivity.
  split; [exact H|].
  exact (CreateNewRegistry_installs_or_gives_back 4096 reg w r w' H).
Defined.

Lemma step_keeps_registry_witness :
  let w := allocations 1 (fresh (bases 3) [] []) in
  let w' := world_after (Allocate 4096 3 1 w) w in
  step 4096 w w' /\
  state (registry_ w) <> to_underlying Inactive /\
  state (registry_ w') <> to_underlying Inactive /\
  (self_address (registry_ w') = self_address (registry_ w) \/
   next_registry (registry_ w') = self_address (registry_ w)).
Proof.
  intros w w'.
  assert (Hs : step 4096 w w').
  { apply (step_Allocate 4096 3 1 w (Ok 12288) w'). reflexivity. }
  assert (Ha : state (registry_ w) <> to_underlying Inactive)
    by (vm_compute; discriminate).
  split; [exact Hs|]. split; [exact Ha|].
  exact (step_keeps_registry 4096 w w' Hs Ha).
Defined.

Lemma RegisterSpan_replaces_full_registry_witness :
  let w := fresh [Some 8192] [] [] in
  let span := {| address := 4096; count := 1 |} in
  let w' := world_after (RegisterSpan 4096 3 span w) w in
  (state (registry_ w) = to_underlying Inactive \/
   state (registry_ w) = to_underlying Full) /\
  RegisterSpan 4096 3 span w = Done (Ok tt) w' /\
  exists b,
    valid_base 4096 b kRegistrySize = true /\
    registry_ w' = reserved 4096 (created (registry_ w) b) /\
    self_address (registry_ w') = Util.bits 48 b /\
    next_slot (registry_ w') = kSpanSetStart + 1 /\
    next_registry (registry_ w') =
      (if state (registry_ w) =? to_underlying Full
       then self_address (registry_ w) else next_registry (registry_ w)) /\
    Span_of_word (cells w' (self_address (registry_ w')
                            + sizeof_Span * kSpanSetStart))
      = {| address := Util.bits 48 (address span);
           count := Util.bits 16 (count span) |}.
Proof.
  intros w span w'.
  assert (Hst : state (registry_ w) = to_underlying Inactive \/
                state (registry_ w) = to_underlying Full)
    by (left; reflexivity).
  assert (H : RegisterSpan 4096 3 span w = Done (Ok tt) w')
    by reflexivity.
  split; [exact Hst|]. split; [exact H|].
  exact (RegisterSpan_replaces_full_registry 4096 3 span w w' Hst H).
Defined.

Lemma RegisterSpan_takes_one_slot_witness :
  let w := allocations 1 (fresh (bases 2) [] []) in
  let span := {| address := 12288; count := 2 |} in
  let w' := world_after (RegisterSpan 4096 3 span w) w in
  state (registry_ w) <> to_underlying Inactive /\
  state (registry_ w) <> to_underlying Full /\
  RegisterSpan 4096 3 span w = Done (Ok tt) w' /\
  registry_ w' = reserved 4096 (registry_ w) /\
  (forall a, cells w' a =
     if a =? self_address (registry_ w) + sizeof_Span * next_slot (registry_ w)
     then Span_to_word span else cells w a) /\
  (forall pg, mapped w' pg = mapped w pg) /\
  fetch_oracle w' = fetch_oracle w /\
  (forall e, In e (trace w') -> In e (trace w) \/ exists o n, e = EvCas o n).
Proof.
  intros w span w'.
  assert (Hi : state (registry_ w) <> to_underlying Inactive)
    by (vm_compute; discriminate).
  assert (Hf : state (registry_ w) <> to_underlying Full)
    by (vm_compute; discriminate).
  assert (H : RegisterSpan 4096 3 span w = Done (Ok tt) w')
    by reflexivity.
  split; [exact Hi|]. split; [exact Hf|]. split; [exact H|].
  exact (RegisterSpan_takes_one_slot 4096 3 span w w' Hi Hf H).
Defined.

Lemma Release_effect_witness :
  let w := allocations 1 (fresh (bases 2) [] []) in
  let w' := world_after (Release 4096 4096 w) w in
  Release 4096 4096 w = Done (Ok tt) w' /\
  registry_ w' = registry_ w /\
  (forall a, cells w' a = cells w a) /\
  fetch_oracle w' = fetch_oracle w /\ cas_oracle w' = cas_oracle w /\
  exists s,
    4096 <> 0 /\ FindSpan 4096 (registry_ w) 4096 w = Done (Some s) w /\
    trace w'
    = EvReturn {| base := 4096; pages := count s |} true :: trace w /\
    forall pg, mapped w' pg =
      negb (in_range 4096 {| base := 4096; pages := count s |} pg)
      && mapped w pg.
Proof.
  intros w w'.
  assert (H : Release 4096 4096 w = Done (Ok tt) w')
    by reflexivity.
  split; [exact H|].
  exact (Release_effect 4096 4096 w (Ok tt) w' H).
Defined.

Lemma Allocate_fails_only_on_refusal_witness :
  let w := fresh [Some 4096; None] [] [] in
  let w' := world_after (Allocate 4096 3 1 w) w in
  Allocate 4096 3 1 w = Done (Fail Internal) w' /\
  exists new,
    trace w' = new ++ trace w /\ existsb refused new = true.
Proof.
  intros w w'.
  assert (H : Allocate 4096 3 1 w = Done (Fail Internal) w')
    by reflexivity.
  split; [exact H|].
  exact (Allocate_fails_only_on_refusal 4096 3 1 w (Fail Internal) w' H).
Defined.

Lemma Release_finds_allocated_witness :
  let w := fresh (bases 2) [] [] in
  let w1 := world_after (Allocate 4096 3 1 w) w in
  kSpanSetStart < kSpanSetEnd 4096 < 2 ^ 12 /\
  run 4096 w /\
  0 <= 1 /\
  Allocate 4096 3 1 w = Done (Ok 4096) w1 /\
  exists r w2,
    Release 4096 4096 w1 = Done r w2 /\
    (r = Ok tt \/ r = Fail Internal) /\
    exists s ok,
      find (fun s => address s =? 4096) (spans_of 4096 (registry_ w1) w1)
        = Some s /\
      address s = 4096 /\
      trace w2 = EvReturn {| base := 4096; pages := count s |} ok :: trace w1 /\
      r = if ok then Ok tt else Fail Internal.
Proof.
  intros w w1.
  assert (Hfit : kSpanSetStart < kSpanSetEnd 4096 < 2 ^ 12)
    by (vm_compute; split; reflexivity).
  assert (Hrun : run 4096 w) by apply run_fresh.
  assert (Hn : 0 <= 1) by lia.
  assert (H : Allocate 4096 3 1 w = Done (Ok 4096) w1)
    by reflexivity.
  split; [exact Hfit|]. split; [exact Hrun|]. split; [exact Hn|].
  split; [exact H|].
  exact (Release_finds_allocated 4096 Hfit 3 1 w 4096 w1 Hrun Hn H).
Defined.

Lemma Release_returns_count_of_first_slot_witness :
  let w0 := fresh [Some 8192; Some 4096; Some 8192] [] [] in
  let wa := world_after (Allocate 4096 3 2 w0) w0 in
  let w := world_after (Release 4096 8192 wa) wa in
  let w1 := world_after (Allocate 4096 3 1 w) w in
  let s := {| address := 8192; count := 2 |} in
  kSpanSetStart < kSpanSetEnd 4096 < 2 ^ 12 /\
  run 4096 w /\
  0 <= 1 /\
  state (registry_ w) <> to_underlying Inactive /\
  state (registry_ w) <> to_underlying Full /\
  in_range 4096 {| base := 8192; pages := 1 |}
           (self_address (registry_ w) / 4096) = false /\
  find (fun s => address s =? 8192)
       (spans_from (Z.to_nat (next_slot (registry_ w) - kSpanSetStart))
                   kSpanSetStart (self_address (registry_ w)) w) = Some s /\
  Allocate 4096 3 1 w = Done (Ok 8192) w1 /\
  exists r w2 ok,
    Release 4096 8192 w1 = Done r w2 /\
    trace w2 = EvReturn {| base := 8192; pages := count s |} ok :: trace w1.
Proof.
  intros w0 wa w w1 s.
  assert (Hfit : kSpanSetStart < kSpanSetEnd 4096 < 2 ^ 12)
    by (vm_compute; split; reflexivity).
  assert (Hrun : run 4096 w).
  { apply (run_Release 4096 wa 8192 (Ok tt) w);
      [apply (run_Allocate 4096 w0 3 2 (Ok 8192) wa);
         [apply run_fresh | reflexivity]
      | reflexivity]. }
  assert (Hn : 0 <= 1) by lia.
  assert (Hi : state (registry_ w) <> to_underlying Inactive)
    by (vm_compute; discriminate).
  assert (Hf : state (registry_ w) <> to_underlying Full)
    by (vm_compute; discriminate).
  assert (Hout : in_range 4096 {| base := 8192; pages := 1 |}
                          (self_address (registry_ w) / 4096) = false)
    by (vm_compute; reflexivity).
  assert (Hs : find (fun s => address s =? 8192)
                 (spans_from (Z.to_nat (next_slot (registry_ w) - kSpanSetStart))
                             kSpanSetStart (self_address (registry_ w)) w)
               = Some s)
    by (vm_compute; reflexivity).
  assert (H : Allocate 4096 3 1 w = Done (Ok 8192) w1) by reflexivity.
  repeat (split; [assumption|]).
  exact (Release_returns_count_of_first_slot 4096 Hfit 3 1 w 8192 w1 s
           Hrun Hn Hi Hf Hout Hs H).
Defined.

Section Turns.

Variable ps : Z.

(** More fuel does not change what [RegisterSpan] comes to. *)
Lemma RegisterSpan_more_fuel fuel : forall fuel' span w,
  (fuel <= fuel')%nat ->
  RegisterSpan ps fuel span w <> OutOfFuel ->
  RegisterSpan ps fuel' span w = RegisterSpan ps fuel span w.
Proof.
  induction fuel as [|fuel IH]; intros fuel' span w Hle Hcut;
    [now contradiction Hcut|].
  destruct fuel' as [|fuel']; [lia|].
  revert Hcut. cbn [RegisterSpan].
  assert (Hk : forall w1, RegisterSpan ps fuel span w1 <> OutOfFuel ->
                 RegisterSpan ps fuel' span w1 = RegisterSpan ps fuel span w1)
    by (intros w1 Hcut; apply IH; [lia | exact Hcut]).
  revert Hk. generalize (RegisterSpan ps fuel' span) (RegisterSpan ps fuel span).
  intros k' k Hk. unfold bind, load_registry.
  destruct (_ =? _).
  { destruct (CreateNewRegistry ps (registry_ w) w) as [[[]|e0] w1| |];
      try reflexivity. apply Hk. }
  destruct (_ =? _).
  { destruct (CreateNewRegistry ps (registry_ w) w) as [[[]|e0] w1| |];
      try reflexivity. apply Hk. }
  destruct (compare_exchange_weak _ _ w) as [[|] w1| |]; try reflexivity.
  apply Hk.
Qed.

(** X10: the loop of [RegisterSpan] ends.  It takes a turn for each
    spurious failure of the compare-exchange, one to reserve the slot and
    one more when a registry must be installed first; [Allocate] returns
    within these turns, and what it returns does not depend on the bound
    on the turns. *)
Theorem Allocate_ends_within_turns fuel fuel' n w :
  (turns w <= fuel)%nat -> (fuel <= fuel')%nat ->
  Allocate ps fuel n w <> OutOfFuel /\
  Allocate ps fuel' n w = Allocate ps fuel n w.
Proof.
  intros Hm Hle. split; [now apply Allocate_returns|].
  unfold Allocate.
  destruct ((n =? 0) || (n >=? Z.shiftl 1 16)); [reflexivity|].
  unfold bind.
  destruct (FetchPages ps n w) as [[range|e] w1| |] eqn:Hf; try reflexivity.
  destruct (FetchPages_quiet _ _ _ _ _ Hf) as (Hr & _ & Ho & _).
  assert (Hm1 : (turns w1 <= fuel)%nat)
    by (unfold turns in *; rewrite Hr, Ho; exact Hm).
  rewrite (RegisterSpan_more_fuel fuel fuel'); [reflexivity | exact Hle |].
  now apply RegisterSpan_returns.
Qed.

End Turns.

Lemma Allocate_ends_within_turns_witness :
  let w := fresh [Some 4096; Some 8192] [] [false; false] in
  (turns w <= 4)%nat /\ (4 <= 7)%nat /\
  Allocate 4096 4 1 w <> OutOfFuel /\
  Allocate 4096 7 1 w = Allocate 4096 4 1 w.
Proof.
  intros w.
  assert (Hm : (turns w <= 4)%nat) by (vm_compute; lia).
  assert (Hle : (4 <= 7)%nat) by lia.
  split; [exact Hm|]. split; [exact Hle|].
  exact (Allocate_ends_within_turns 4096 4 7 1 w Hm Hle).
Defined.

End PageStepProofs.

(** * Further properties of the block manager *)

Module BlockSizeProofs.
Import Block BlockFacts BlockProofs.

(** X11: with an alignment that is a power of two and sizes that do not
    overflow, the aligned size is a multiple of the alignment; under
    [HaveAtLeastSizeBytes] it is the least one with room for the header and
    [size] bytes, under [NoMoreThanSizeBytes] the greatest one within
    [size] bytes. *)
Theorem GetAlignedSize_meets_limit hdr o k :
  0 <= k <= 64 -> alignment o = 2 ^ k ->
  0 <= hdr -> 0 <= size o -> size o + hdr + 2 ^ k <= 2 ^ 64 ->
  GetAlignedSize hdr o mod alignment o = 0 /\
  (if must_contain_size_bytes_in_space o
   then size o + hdr <= GetAlignedSize hdr o < size o + hdr + alignment o
   else size o - alignment o < GetAlignedSize hdr o <= size o).
Proof.
  intros Hk HA Hh Hs Hsum. unfold GetAlignedSize. rewrite HA.
  assert (Hp : 0 < 2 ^ k) by (apply Z.pow_pos_nonneg; lia).
  destruct (must_contain_size_bytes_in_space o).
  - rewrite wrap64_small by lia.
    destruct (AlignUp_bounds k (size o + hdr) Hk) as [Hb Hm]; [lia|lia|].
    split; [exact Hm | lia].
  - destruct (AlignDown_bounds k (size o) Hk) as [Hb Hm]; [lia|].
    split; [exact Hm | lia].
Qed.

Lemma GetAlignedSize_meets_limit_witness :
  let o := kDefaultOptions 8 16 100 NoMoreThanSizeBytes GrowStorage in
  0 <= 4 <= 64 /\ alignment o = 2 ^ 4 /\
  0 <= 16 /\ 0 <= size o /\ size o + 16 + 2 ^ 4 <= 2 ^ 64 /\
  GetAlignedSize 16 o mod alignment o = 0 /\
  (if must_contain_size_bytes_in_space o
   then size o + 16 <= GetAlignedSize 16 o < size o + 16 + alignment o
   else size o - alignment o < GetAlignedSize 16 o <= size o).
Proof.
  intros o.
  assert (Hk : 0 <= 4 <= 64) by lia.
  assert (HA : alignment o = 2 ^ 4) by reflexivity.
  assert (Hh : 0 <= 16) by lia.
  assert (Hs : 0 <= size o) by (vm_compute; discriminate).
  assert (Hsum : size o + 16 + 2 ^ 4 <= 2 ^ 64) by (vm_compute; discriminate).
  repeat (split; [assumption|]).
  exact (GetAlignedSize_meets_limit 16 o 4 Hk HA Hh Hs Hsum).
Defined.

End BlockSizeProofs.

(** * Further properties of the bump allocator *)

Module BumpRunProofs.
Import Bump BumpFacts BumpProofs BlockProofs BumpRuns.

Lemma AlignUp_range n a : 0 <= Util.AlignUp n a < 2 ^ 64.
Proof.
  unfold Util.AlignUp.
  assert (E : forall x y, Z.land (Util.wrap64 x) y = Z.land x y mod 2 ^ 64).
  { intros x y. unfold Util.wrap64. rewrite <- !(Z.land_ones _ 64) by lia.
    rewrite <- Z.land_assoc, (Z.land_comm (Z.ones 64)), Z.land_assoc.
    reflexivity. }
  rewrite E. apply Z.mod_pos_bound. lia.
Qed.

Section Allocator.

Variables (page hdr : Z) (T : Template).

Local Abbreviation AS := (AlignedSize_ hdr T).
Local Abbreviation A := (Alignment_ T).

Lemma AlignedSize_range : 0 <= AS < 2 ^ 64.
Proof. apply AlignUp_range. Qed.

Section Payload.

Variable k : Z.
Hypothesis Hk : 0 <= k <= 64.
Hypothesis HA : A = 2 ^ k.
Hypothesis Hhdr : 0 <= hdr.

Lemma request_facts n :
  0 <= n -> n + 2 ^ k <= 2 ^ 64 ->
  n <= Util.AlignUp n A /\ Util.AlignUp n A mod A = 0.
Proof.
  intros Hn Hs. rewrite HA.
  destruct (AlignUp_bounds k n Hk Hn Hs) as [[H1 _] H2]. auto.
Qed.

(** A request that fits the payload of a chunk is served inside the payload
    of the chunk that serves it. *)
Lemma allocate_payload n b h p b' h' :
  0 <= n -> n + 2 ^ k <= 2 ^ 64 ->
  Util.AlignUp n A <= AS - hdr ->
  offset_ok hdr T b ->
  allocate page hdr T n b h = Done (p, b', h') ->
  offset_ok hdr T b' /\
  (p <> 0 ->
   0 <= current_ b' -> current_ b' + AS < 2 ^ 64 ->
   current_ b' + hdr <= p /\ p + n <= current_ b' + AS /\
   (p - (current_ b' + hdr)) mod A = 0 /\
   offset_ b' = p - (current_ b' + hdr) + Util.AlignUp n A).
Proof.
  intros Hn Hs Hfit [Hoff Hmul] Hrun.
  destruct (request_facts n Hn Hs) as [Hle Hreq].
  pose proof AlignedSize_range as HAS.
  pose proof (AlignUp_range n A) as Hrr.
  assert (Hpos : 0 < A) by (rewrite HA; apply Z.pow_pos_nonneg; lia).
  (* what [serve] gives from an offset within the payload *)
  assert (Hserve : forall bb hh,
    0 <= offset_ bb -> offset_ bb + Util.AlignUp n A <= AS - hdr ->
    offset_ bb mod A = 0 ->
    serve hdr (Util.AlignUp n A) bb hh = Done (p, b', h') ->
    offset_ok hdr T b' /\
    (p <> 0 -> 0 <= current_ b' -> current_ b' + AS < 2 ^ 64 ->
     current_ b' + hdr <= p /\ p + n <= current_ b' + AS /\
     (p - (current_ b' + hdr)) mod A = 0 /\
     offset_ b' = p - (current_ b' + hdr) + Util.AlignUp n A)).
  { intros bb hh Ho1 Ho2 Ho3. unfold serve, GetChunk. intros [= <- <- <-].
    unfold offset_ok. cbn [offset_ current_]. unfold Util.wrap64.
    rewrite (Z.mod_small (offset_ bb + _)) by lia.
    split.
    - split; [lia|]. rewrite Z.add_mod, Ho3, Hreq by lia. reflexivity.
    - intros _ Hc1 Hc2.
      rewrite (Z.mod_small (current_ bb + hdr)) by lia.
      rewrite (Z.mod_small (current_ bb + hdr + offset_ bb)) by lia.
      replace (current_ bb + hdr + offset_ bb - (current_ bb + hdr))
        with (offset_ bb) by lia.
      repeat split; auto; lia. }
  revert Hrun. unfold allocate.
  destruct (n >? AS); [intros [= <- <- <-]; split; [split; auto|congruence]|].
  assert (Hin : forall bb hh,
    offset_ bb = offset_ b ->
    allocate_in_chunk page hdr T n bb hh = Done (p, b', h') ->
    offset_ok hdr T b' /\
    (p <> 0 -> 0 <= current_ b' -> current_ b' + AS < 2 ^ 64 ->
     current_ b' + hdr <= p /\ p + n <= current_ b' + AS /\
     (p - (current_ b' + hdr)) mod A = 0 /\
     offset_ b' = p - (current_ b' + hdr) + Util.AlignUp n A)).
  { intros bb hh Hob. unfold allocate_in_chunk.
    unfold Util.wrap64 at 1.
    rewrite (Z.mod_small (AS - offset_ bb - hdr)) by (rewrite Hob; lia).
    destruct (Util.AlignUp n A >? AS - offset_ bb - hdr) eqn:Hcmp.
    - destruct (negb (GrowWhenFull_ T)).
      { intros [= <- <- <-]. unfold offset_ok. rewrite Hob.
        split; [split; auto|congruence]. }
      destruct (AllocateNewChunk page hdr T hh) as [chunk h1].
      destruct (chunk =? 0).
      { intros [= <- <- <-]. unfold offset_ok. rewrite Hob.
        split; [split; auto|congruence]. }
      destruct (headers h1 !! current_ bb); [|discriminate].
      apply Hserve; cbn [offset_]; try lia. apply Z.mod_0_l. lia.
    - apply Hserve; rewrite ?Hob; auto; lia. }
  destruct (chunks_ b =? 0).
  - destruct (AllocateNewChunk page hdr T h) as [chunk h1].
    destruct (chunk =? 0).
    + intros [= <- <- <-]. cbn. split; [split; auto|congruence].
    + apply Hin. reflexivity.
  - apply Hin. reflexivity.
Qed.

(** X12: a request that fits the payload of a chunk is served inside the
    payload of the chunk that serves it: the pointer returned is at or
    after the end of the header, the [n] bytes end at or before the end of
    the chunk, the pointer is a multiple of the alignment away from the
    payload's start, and the offset of the allocator stays within the
    payload and a multiple of the alignment. *)
Theorem allocate_within_payload n b h p b' h' :
  0 <= n -> n + 2 ^ k <= 2 ^ 64 ->
  Util.AlignUp n A <= AS - hdr ->
  offset_ok hdr T b ->
  allocate page hdr T n b h = Done (p, b', h') ->
  offset_ok hdr T b' /\
  (p <> 0 ->
   0 <= current_ b' -> current_ b' + AS < 2 ^ 64 ->
   current_ b' + hdr <= p /\ p + n <= current_ b' + AS /\
   (p - (current_ b' + hdr)) mod A = 0 /\
   offset_ b' = p - (current_ b' + hdr) + Util.AlignUp n A).
Proof. apply allocate_payload. Qed.

(** A chunk asked of the platform shows in the log. *)
Lemma AllocateNewChunk_log h chunk h1 :
  AllocateNewChunk page hdr T h = (chunk, h1) ->
  exists e, log h1 = e :: log h.
Proof.
  unfold AllocateNewChunk. destruct (next_alloc h) as [o rest].
  match goal with
  | |- context [match ?g with Some _ => _ | None => _ end = _] =>
      destruct g
  end; intros [= _ <-]; cbn [log]; eauto.
Qed.

Lemma log_grows (l : list Event) e : l <> e :: l.
Proof.
  intros E. apply (f_equal (@length Event)) in E. cbn in E. lia.
Qed.

(** A call that does not ask the platform serves from the current chunk,
    at the offset of the allocator. *)
Lemma allocate_in_place n b h p b' h' :
  allocate page hdr T n b h = Done (p, b', h') ->
  log h' = log h ->
  p <> 0 ->
  h' = h /\ chunks_ b' = chunks_ b /\ current_ b' = current_ b /\
  p = Util.wrap64 (GetChunk hdr (current_ b) + offset_ b) /\
  offset_ b' = Util.wrap64 (offset_ b + Util.AlignUp n A).
Proof.
  unfold allocate. destruct (n >? AS); [intros [= <- <- <-]; congruence|].
  destruct (chunks_ b =? 0).
  { destruct (AllocateNewChunk page hdr T h) as [chunk h1] eqn:Hc.
    apply AllocateNewChunk_log in Hc. destruct Hc as [e He].
    destruct (chunk =? 0).
    - intros [= <- <- <-]. congruence.
    - unfold allocate_in_chunk. destruct (_ >? _).
      + destruct (negb _); [intros [= <- <- <-]; congruence|].
        destruct (AllocateNewChunk page hdr T h1) as [chunk2 h2] eqn:Hc2.
        apply AllocateNewChunk_log in Hc2. destruct Hc2 as [e2 He2].
        destruct (chunk2 =? 0); [intros [= <- <- <-]; congruence|].
        destruct (headers h2 !! _); [|discriminate].
        unfold serve. intros [= <- <- <-]. cbn [log]. rewrite He2, He.
        intros E. exfalso. symmetry in E.
        apply (f_equal (@length Event)) in E. cbn in E. lia.
      + unfold serve. intros [= <- <- <-]. rewrite He. intros E.
        symmetry in E. now apply log_grows in E. }
  unfold allocate_in_chunk. destruct (_ >? _).
  - destruct (negb _); [intros [= <- <- <-]; congruence|].
    destruct (AllocateNewChunk page hdr T h) as [chunk2 h2] eqn:Hc2.
    apply AllocateNewChunk_log in Hc2. destruct Hc2 as [e2 He2].
    destruct (chunk2 =? 0).
    + intros [= <- <- <-]. congruence.
    + destruct (headers h2 !! _); [|discriminate].
      unfold serve. intros [= <- <- <-]. cbn [log]. rewrite He2. intros E.
      symmetry in E. now apply log_grows in E.
  - unfold serve. intros [= <- <- <-]. auto.
Qed.

(** A pointer that is not null was served: it lies at an offset from the
    payload of the chunk that is current afterwards, and the offset of the
    allocator is this offset advanced by the request rounded up. *)
Lemma allocate_served n b h p b' h' :
  allocate page hdr T n b h = Done (p, b', h') ->
  p <> 0 ->
  exists off,
    p = Util.wrap64 (GetChunk hdr (current_ b') + off) /\
    offset_ b' = Util.wrap64 (off + Util.AlignUp n A).
Proof.
  assert (Hserve : forall bb hh,
    serve hdr (Util.AlignUp n A) bb hh = Done (p, b', h') ->
    exists off,
      p = Util.wrap64 (GetChunk hdr (current_ b') + off) /\
      offset_ b' = Util.wrap64 (off + Util.AlignUp n A)).
  { intros bb hh. unfold serve. intros [= <- <- <-].
    exists (offset_ bb). cbn [current_ offset_]. auto. }
  assert (Hin : forall bb hh,
    allocate_in_chunk page hdr T n bb hh = Done (p, b', h') ->
    p <> 0 ->
    exists off,
      p = Util.wrap64 (GetChunk hdr (current_ b') + off) /\
      offset_ b' = Util.wrap64 (off + Util.AlignUp n A)).
  { intros bb hh. unfold allocate_in_chunk. destruct (_ >? _).
    - destruct (negb _); [intros [= <- <- <-]; congruence|].
      destruct (AllocateNewChunk page hdr T hh) as [chunk h1].
      destruct (chunk =? 0); [intros [= <- <- <-]; congruence|].
      destruct (headers h1 !! _); [|discriminate].
      intros H _. eapply Hserve; exact H.
    - intros H _. eapply Hserve; exact H. }
  unfold allocate. destruct (n >? AS); [intros [= <- <- <-]; congruence|].
  destruct (chunks_ b =? 0).
  - destruct (AllocateNewChunk page hdr T h) as [chunk h1].
    destruct (chunk =? 0); [intros [= <- <- <-]; congruence|]. apply Hin.
  - apply Hin.
Qed.

(** X13: with an alignment that is a power of two, two requests that are
    served one after the other, both with a pointer that is not null and
    the second without a call of the platform, are served from the same
    current chunk and do not overlap: when the first pointer and the first
    request rounded up to the alignment do not pass the end of the address
    space, the second pointer is the first plus the first request rounded
    up.  Nothing is asked of the first request but that it was served: it
    may be one that did not fit its chunk. *)
Theorem allocations_in_a_chunk_follow n1 n2 b h p1 b1 h1 p2 b2 h2 :
  0 <= n1 -> n1 + 2 ^ k <= 2 ^ 64 ->
  allocate page hdr T n1 b h = Done (p1, b1, h1) ->
  allocate page hdr T n2 b1 h1 = Done (p2, b2, h2) ->
  p1 <> 0 -> p2 <> 0 ->
  log h2 = log h1 ->
  p1 + Util.AlignUp n1 A < 2 ^ 64 ->
  current_ b2 = current_ b1 /\
  p2 = p1 + Util.AlignUp n1 A /\
  p1 + n1 <= p2.
Proof.
  intros Hn Hs H1 H2 Hp1 Hp2 Hlog Hend.
  destruct (request_facts n1 Hn Hs) as [Hle _].
  destruct (allocate_served _ _ _ _ _ _ H1 Hp1) as (off & Hp1eq & Hoff).
  destruct (allocate_in_place _ _ _ _ _ _ H2 Hlog Hp2) as (_ & _ & Hcur & Hp & _).
  split; [exact Hcur|].
  pose proof (AlignUp_range n1 A) as HR.
  assert (H0 : 0 <= p1).
  { rewrite Hp1eq. unfold Util.wrap64. apply Z.mod_pos_bound. lia. }
  assert (Hw : p2 = Util.wrap64 (p1 + Util.AlignUp n1 A)).
  { rewrite Hp, Hoff, Hp1eq. generalize (GetChunk hdr (current_ b1)).
    intros g. unfold Util.wrap64.
    rewrite Z.add_mod_idemp_r, Z.add_mod_idemp_l by lia.
    f_equal. lia. }
  assert (p2 = p1 + Util.AlignUp n1 A).
  { rewrite Hw. unfold Util.wrap64. apply Z.mod_small. lia. }
  split; [assumption | lia].
Qed.

End Payload.

(** X14: an allocator that may not grow ([GrowT<WhenFull::ReturnNull>])
    never asks the platform again once it has its chunk: a request larger
    than a chunk or than what is left of the payload gets null and leaves
    the allocator and the heap as they were, every other request is served
    at the offset and advances it by the request rounded up. *)
Theorem allocate_without_growth n b h :
  0 <= hdr ->
  GrowWhenFull_ T = false ->
  chunks_ b <> 0 ->
  0 <= offset_ b <= AS - hdr ->
  allocate page hdr T n b h =
    if (n >? AS) || (Util.AlignUp n A >? AS - hdr - offset_ b)
    then Done (0, b, h)
    else Done (Util.wrap64 (GetChunk hdr (current_ b) + offset_ b),
               {| offset_ := offset_ b + Util.AlignUp n A;
                  chunks_ := chunks_ b; current_ := current_ b |},
               h).
Proof.
  intros Hhdr Hg Hc Hoff. pose proof AlignedSize_range.
  pose proof (AlignUp_range n A).
  unfold allocate. destruct (n >? AS); [reflexivity|]. cbn [orb].
  apply Z.eqb_neq in Hc. rewrite Hc.
  unfold allocate_in_chunk. rewrite Hg. cbn [negb].
  unfold Util.wrap64 at 1. rewrite (Z.mod_small (AS - offset_ b - hdr)) by lia.
  replace (AS - offset_ b - hdr) with (AS - hdr - offset_ b) by lia.
  destruct (_ >? _) eqn:Hcmp; [reflexivity|].
  unfold serve. unfold Util.wrap64 at 2.
  rewrite (Z.mod_small (offset_ b + _)) by lia. reflexivity.
Qed.

(** What a chunk asked of the platform changes. *)
Lemma AllocateNewChunk_spec h chunk h1 :
  AllocateNewChunk page hdr T h = (chunk, h1) ->
  release_oracle h1 = release_oracle h /\
  (exists pre, answers (alloc_oracle h) = pre ++ answers (alloc_oracle h1) /\
               (chunk <> 0 -> pre = [chunk])) /\
  ((chunk = 0 /\ headers h1 = headers h) \/
   (0 < chunk /\
    exists sz, headers h1
               = <[chunk := {| chunk_size := sz; next := 0 |}]> (headers h))).
Proof.
  unfold AllocateNewChunk, next_alloc.
  destruct (alloc_oracle h) as [|[q|] rest] eqn:Ho.
  - intros [= <- <-]. cbn. split; [reflexivity|]. split.
    + exists []. split; [reflexivity | congruence].
    + left. auto.
  - destruct ((0 <? q) && (q mod _ =? 0)) eqn:Hv; intros [= <- <-]; cbn.
    + apply andb_true_iff in Hv. destruct Hv as [Hq _]. apply Z.ltb_lt in Hq.
      split; [reflexivity|]. split.
      * exists [q]. split; [reflexivity | auto].
      * right. split; [exact Hq|]. eauto.
    + split; [reflexivity|]. split.
      * exists [q]. split; [reflexivity | congruence].
      * left. auto.
  - intros [= <- <-]. cbn. split; [reflexivity|]. split.
    + exists []. split; [reflexivity | congruence].
    + left. auto.
Qed.

End Allocator.

(** The chunks of a chain are live. *)
Lemma chain_live hs a l x : chain hs a l -> In x l -> is_Some (hs !! x).
Proof.
  induction 1 as [|a hd l Hne Hl Hc IH]; intros Hin; [destruct Hin|].
  destruct Hin as [<- | Hin]; eauto.
Qed.

Lemma chain_insert_fresh hs a l p x :
  chain hs a l -> hs !! p = None -> chain (<[p := x]> hs) a l.
Proof.
  induction 1 as [|a hd l Hne Hl Hc IH]; intros Hp; [constructor|].
  econstructor; eauto. rewrite lookup_insert_ne; [exact Hl | congruence].
Qed.

(** Linking a chunk behind the last chunk of a chain makes the chain one
    chunk longer. *)
Lemma chain_append hs a l c hd hp p :
  chain hs a l ->
  last l = Some c ->
  hs !! c = Some hd ->
  hs !! p = Some hp -> next hp = 0 -> p <> 0 -> p <> c ->
  chain (<[c := {| chunk_size := chunk_size hd; next := p |}]> hs) a (l ++ [p]).
Proof.
  intros Hc Hlast Hlc Hlp Hn0 Hp0 Hpc.
  induction Hc as [|a hd' l Hne Hl Hc IH]; [discriminate|].
  destruct l as [|y l].
  - cbn in Hlast. injection Hlast as ->. cbn.
    apply chain_next with (hd := {| chunk_size := chunk_size hd; next := p |});
      [assumption | apply lookup_insert_eq |]. cbn [next].
    apply chain_next with (hd := hp); [assumption | |].
    + rewrite lookup_insert_ne by congruence. exact Hlp.
    + rewrite Hn0. constructor.
  - assert (Hac : a <> c).
    { intros ->. assert (Hin : In c (y :: l)).
      { change (last (c :: y :: l)) with (last (y :: l)) in Hlast.
        apply last_Some in Hlast. destruct Hlast as [l' ->].
        apply in_or_app. right. now left. }
      apply (chain_head_fresh hs c (y :: l)); [|exact Hin].
      apply chain_next with (hd := hd'); assumption. }
    cbn [app]. apply chain_next with (hd := hd'); [assumption | |].
    + rewrite lookup_insert_ne by congruence. exact Hl.
    + apply IH. exact Hlast.
Qed.

Section Ownership.

Variables (page hdr : Z) (T : Template).

Lemma fresh_answers_after h h1 pre hs1 :
  fresh_answers h ->
  answers (alloc_oracle h) = pre ++ answers (alloc_oracle h1) ->
  headers h1 = hs1 ->
  (forall x, ~ In x pre -> hs1 !! x = None <-> headers h !! x = None) ->
  fresh_answers h1.
Proof.
  intros [Hnd Hfree] Hpre <- Hsame. rewrite Hpre in Hnd, Hfree.
  apply NoDup_app in Hnd. destruct Hnd as (_ & Hdis & Hnd). split.
  - exact Hnd.
  - intros q Hq. apply Hsame.
    + intros Hin.
      apply (Hdis q); [now apply list_elem_of_In | now apply list_elem_of_In].
    + apply Hfree. apply in_or_app. now right.
Qed.

Lemma extends_same b h l b' :
  owns b h l -> fresh_answers h ->
  chunks_ b' = chunks_ b -> current_ b' = current_ b ->
  extends b h l b' h [].
Proof.
  intros [Hc Hl] Hf E1 E2. unfold extends, owns. rewrite app_nil_r, E1, E2.
  split; [split; assumption|]. split; [exact Hf|].
  split; [intros x []|]. split; [auto|]. split; auto.
Qed.

Lemma allocate_in_chunk_extends n b h l p b' h' :
  owns b h l -> chunks_ b <> 0 -> fresh_answers h ->
  allocate_in_chunk page hdr T n b h = Done (p, b', h') ->
  exists l2, extends b h l b' h' l2 /\ chunks_ b' = chunks_ b.
Proof.
  intros Ho Hne Hf. unfold allocate_in_chunk.
  destruct (_ >? _).
  2:{ unfold serve. intros [= <- <- <-]. exists []. split; [|reflexivity].
      apply extends_same; auto. }
  destruct (negb _).
  { intros [= <- <- <-]. exists []. split; [|reflexivity].
    apply extends_same; auto. }
  destruct (AllocateNewChunk page hdr T h) as [chunk h1] eqn:Hc.
  apply AllocateNewChunk_spec in Hc.
  destruct Hc as (Hro & (pre & Hpre & Hpre1) & Hcase).
  destruct Ho as [Hchain Hlast].
  destruct (Z.eqb_spec chunk 0) as [Hz|Hnz].
  - intros [= <- <- <-]. exists []. split; [|reflexivity].
    destruct Hcase as [[_ Hh] | [Hpos _]]; [|lia].
    unfold extends, owns. rewrite app_nil_r, Hh.
    split; [split; assumption|]. split; [|split; [|split; [|split]]].
    + eapply fresh_answers_after with (pre := pre);
        [exact Hf | exact Hpre | reflexivity | intros x _; rewrite Hh; tauto].
    + intros x [].
    + intros x Hx. rewrite Hpre. apply in_or_app. now right.
    + reflexivity.
    + exact Hro.
  - destruct Hcase as [[Hz _] | [Hpos [sz Hh]]]; [contradiction|].
    specialize (Hpre1 Hnz). subst pre.
    assert (Hfree : headers h !! chunk = None).
    { apply Hf. rewrite Hpre. now left. }
    specialize (Hlast Hne).
    assert (Hcur : In (current_ b) l).
    { apply last_Some in Hlast. destruct Hlast as [l' ->].
      apply in_or_app. right. now left. }
    destruct (chain_live _ _ _ _ Hchain Hcur) as [hd Hhd].
    assert (Hcc : chunk <> current_ b) by congruence.
    rewrite Hh, lookup_insert_ne, Hhd by exact Hcc.
    unfold serve. intros [= <- <- <-]. exists [chunk]. split; [|reflexivity].
    unfold extends, owns. cbn [headers chunks_ current_ alloc_oracle
                               release_oracle].
    split; [split|].
    + eapply chain_append with (hp := {| chunk_size := sz; next := 0 |}); eauto.
      * apply chain_insert_fresh; assumption.
      * rewrite lookup_insert_ne by exact Hcc. exact Hhd.
      * apply lookup_insert_eq.
    + intros _. apply last_snoc.
    + split; [|split; [|split; [|split]]].
      * eapply fresh_answers_after with (h := h)
          (h1 := {| headers := _; alloc_oracle := alloc_oracle h1;
                    release_oracle := release_oracle h1; log := log h1 |});
          [exact Hf | exact Hpre | reflexivity |].
        cbn [headers]. intros x Hx.
        assert (x <> chunk) by (intros ->; apply Hx; now left).
        destruct (Z.eq_dec x (current_ b)) as [->|Hxc].
        -- rewrite lookup_insert_eq, Hhd. split; discriminate.
        -- rewrite !lookup_insert_ne by congruence. tauto.
      * intros x [<- | []]. rewrite Hpre. now left.
      * intros x Hx. rewrite Hpre. now right.
      * intros x Hx.
        assert (x <> chunk)
          by (intros ->; apply Hx; apply in_or_app; right; now left).
        assert (x <> current_ b)
          by (intros ->; apply Hx; apply in_or_app; now left).
        rewrite !lookup_insert_ne by congruence. reflexivity.
      * exact Hro.
Qed.

Lemma allocate_extends n b h l p b' h' :
  owns b h l -> fresh_answers h ->
  allocate page hdr T n b h = Done (p, b', h') ->
  exists l2, extends b h l b' h' l2.
Proof.
  intros Ho Hf. unfold allocate.
  destruct (_ >? _).
  { intros [= <- <- <-]. exists []. apply extends_same; auto. }
  destruct (Z.eqb_spec (chunks_ b) 0) as [Hz|Hnz].
  2:{ intros H. eapply allocate_in_chunk_extends in H; eauto.
      destruct H as (l2 & H & _). eauto. }
  destruct Ho as [Hchain _]. rewrite Hz in Hchain.
  assert (l = []) by (inversion Hchain; congruence). subst l.
  destruct (AllocateNewChunk page hdr T h) as [chunk h1] eqn:Hc.
  apply AllocateNewChunk_spec in Hc.
  destruct Hc as (Hro & (pre & Hpre & Hpre1) & Hcase).
  destruct (Z.eqb_spec chunk 0) as [Hcz|Hcnz].
  - intros [= <- <- <-]. exists [].
    destruct Hcase as [[_ Hh] | [Hpos _]]; [|lia].
    unfold extends, owns. cbn [app chunks_]. rewrite Hh.
    split; [split; [constructor | contradiction]|].
    split; [|split; [|split; [|split]]].
    + eapply fresh_answers_after with (pre := pre);
        [exact Hf | exact Hpre | reflexivity | intros x _; rewrite Hh; tauto].
    + intros x [].
    + intros x Hx. rewrite Hpre. apply in_or_app. now right.
    + reflexivity.
    + exact Hro.
  - destruct Hcase as [[Hcz _] | [Hpos [sz Hh]]]; [contradiction|].
    specialize (Hpre1 Hcnz). subst pre.
    assert (Hfree : headers h !! chunk = None).
    { apply Hf. rewrite Hpre. now left. }
    assert (Hf1 : fresh_answers h1).
    { eapply fresh_answers_after with (pre := [chunk]);
        [exact Hf | exact Hpre | reflexivity |].
      intros x Hx. assert (x <> chunk) by (intros ->; apply Hx; now left).
      rewrite Hh, lookup_insert_ne by congruence. tauto. }
    intros H.
    eapply (allocate_in_chunk_extends n _ h1 [chunk]) in H;
      [| |exact Hcnz|exact Hf1].
    2:{ split; cbn [chunks_ current_]; [|reflexivity].
        apply chain_next with (hd := {| chunk_size := sz; next := 0 |});
          [exact Hcnz | rewrite Hh; apply lookup_insert_eq | constructor]. }
    destruct H as (l2 & (Hown & Hfr & Hin2 & Hans & Hframe & Hrel) & _).
    exists (chunk :: l2). unfold extends. cbn [app] in *.
    split; [exact Hown|]. split; [exact Hfr|].
    split; [|split; [|split]].
    + intros x [<- | Hx]; [rewrite Hpre; now left|].
      rewrite Hpre. right. now apply Hin2.
    + intros x Hx. rewrite Hpre. right. now apply Hans.
    + intros x Hx. rewrite (Hframe x Hx), Hh.
      apply lookup_insert_ne. intros ->. apply Hx. now left.
    + congruence.
Qed.

Lemma extends_trans b h l b1 h1 l2 b2 h2 l3 :
  extends b h l b1 h1 l2 -> extends b1 h1 (l ++ l2) b2 h2 l3 ->
  extends b h l b2 h2 (l2 ++ l3).
Proof.
  intros (Ho1 & Hf1 & Hin1 & Ha1 & Hfr1 & Hr1) (Ho2 & Hf2 & Hin2 & Ha2 & Hfr2 & Hr2).
  unfold extends. rewrite app_assoc.
  split; [exact Ho2|]. split; [exact Hf2|]. split; [|split; [|split]].
  - intros x Hx. apply in_app_or in Hx. destruct Hx; auto.
  - auto.
  - intros x Hx. rewrite Hfr2 by exact Hx. apply Hfr1.
    intros Hin. apply Hx. apply in_or_app. now left.
  - congruence.
Qed.

(** The owner of a chain never reads a header that is not live. *)
Lemma allocate_in_chunk_never_faults n b h l :
  owns b h l -> chunks_ b <> 0 -> fresh_answers h ->
  exists r, allocate_in_chunk page hdr T n b h = Done r.
Proof.
  intros [Hchain Hlast] Hne Hf. unfold allocate_in_chunk, serve.
  destruct (_ >? _); [|eauto]. destruct (negb _); [eauto|].
  destruct (AllocateNewChunk page hdr T h) as [chunk h1] eqn:Hc.
  apply AllocateNewChunk_spec in Hc.
  destruct Hc as (Hro & (pre & Hpre & Hpre1) & Hcase).
  destruct (Z.eqb_spec chunk 0) as [Hz|Hnz]; [eauto|].
  destruct Hcase as [[Hz _] | [Hpos [sz Hh]]]; [contradiction|].
  specialize (Hpre1 Hnz). subst pre.
  assert (Hfree : headers h !! chunk = None).
  { apply Hf. rewrite Hpre. now left. }
  specialize (Hlast Hne).
  assert (Hcur : In (current_ b) l).
  { apply last_Some in Hlast. destruct Hlast as [l' ->].
    apply in_or_app. right. now left. }
  destruct (chain_live _ _ _ _ Hchain Hcur) as [hd Hhd].
  assert (Hcc : chunk <> current_ b) by congruence.
  rewrite Hh, lookup_insert_ne, Hhd by exact Hcc. eauto.
Qed.

Lemma allocate_never_faults n b h l :
  owns b h l -> fresh_answers h ->
  exists r, allocate page hdr T n b h = Done r.
Proof.
  intros Ho Hf. unfold allocate.
  destruct (_ >? _); [eauto|].
  destruct (Z.eqb_spec (chunks_ b) 0) as [Hz|Hnz].
  2:{ eapply allocate_in_chunk_never_faults; eauto. }
  destruct (AllocateNewChunk page hdr T h) as [chunk h1] eqn:Hc.
  apply AllocateNewChunk_spec in Hc.
  destruct Hc as (Hro & (pre & Hpre & Hpre1) & Hcase).
  destruct (Z.eqb_spec chunk 0) as [Hcz|Hcnz]; [eauto|].
  destruct Hcase as [[Hcz _] | [Hpos [sz Hh]]]; [contradiction|].
  specialize (Hpre1 Hcnz). subst pre.
  assert (Hfree : headers h !! chunk = None).
  { apply Hf. rewrite Hpre. now left. }
  apply allocate_in_chunk_never_faults with (l := [chunk]).
  - split; cbn [chunks_ current_]; [|reflexivity].
    apply chain_next with (hd := {| chunk_size := sz; next := 0 |});
      [exact Hcnz | rewrite Hh; apply lookup_insert_eq | constructor].
  - exact Hcnz.
  - eapply fresh_answers_after with (pre := [chunk]);
      [exact Hf | exact Hpre | reflexivity |].
    intros x Hx. assert (x <> chunk) by (intros ->; apply Hx; now left).
    rewrite Hh, lookup_insert_ne by congruence. tauto.
Qed.

Lemma allocates_extends ns : forall b h l,
  owns b h l -> fresh_answers h ->
  exists ps b' h' l2,
    allocates page hdr T ns b h = Done (ps, b', h') /\
    length ps = length ns /\
    extends b h l b' h' l2.
Proof.
  induction ns as [|n ns IH]; intros b h l Ho Hf.
  - exists [], b, h, []. split; [reflexivity|]. split; [reflexivity|].
    apply extends_same; auto.
  - cbn [allocates].
    destruct (allocate_never_faults n b h l Ho Hf) as ([[p b1] h1] & Hal).
    rewrite Hal.
    destruct (allocate_extends n b h l p b1 h1 Ho Hf Hal) as (l2 & He).
    pose proof He as (Ho1 & Hf1 & _).
    destruct (IH b1 h1 (l ++ l2) Ho1 Hf1) as (ps & b' & h' & l3 & -> & Hlen & He').
    exists (p :: ps), b', h', (l2 ++ l3). split; [reflexivity|].
    split; [cbn; lia|]. eapply extends_trans; eauto.
Qed.

Lemma accepts_releases_ok ro :
  forallb (fun ok : bool => ok) ro = true -> forall k, releases_ok k ro = true.
Proof.
  intros H k. revert ro H. induction k as [|k IH]; intros ro H; [reflexivity|].
  cbn [releases_ok]. destruct ro as [|[|] ro]; cbn in *;
    try discriminate; apply IH; auto.
Qed.

(** [Reset] by the owner of a chain, on a platform that accepts the
    releases. *)
Lemma Reset_owner b h l :
  chain (headers h) (chunks_ b) l ->
  accepts_releases h = true ->
  exists h',
    Reset page hdr T b h
    = Done ({| offset_ := 0; chunks_ := 0; current_ := current_ b |}, h') /\
    alloc_oracle h' = alloc_oracle h /\
    (forall x, In x l -> headers h' !! x = None) /\
    (forall x, ~ In x l -> headers h' !! x = headers h !! x).
Proof.
  intros Hc Hacc. unfold Reset. cbn [chunks_ offset_ current_].
  destruct (Z.eqb_spec (chunks_ b) 0) as [E|E]; cbn [negb].
  - rewrite E in Hc. inversion Hc; subst; [|congruence].
    exists h. split; [reflexivity|]. split; [reflexivity|].
    split; [intros x []|reflexivity].
  - unfold ReleaseChunks, internal_ReleaseChunks.
    destruct (ReleaseChunks_walk_chain
                (if IsPageMultiple page hdr T then ReleasePages else ReleaseBytes)
                l (S (stdpp.base.size (headers h))) (chunks_ b) h Hc)
      as (h' & -> & Hao & Hh).
    + apply chain_length in Hc. lia.
    + exists h'. split; [reflexivity|]. split; [exact Hao|].
      apply Hh. apply accepts_releases_ok. exact Hacc.
Qed.

(** X15: on a platform that hands out unused memory and accepts the
    releases, whatever is asked of a new allocator, no call of [allocate]
    reads a header that is not live, and [Reset] then gives back every
    chunk the allocator has taken: the live chunks are those from before
    the first request. *)
Theorem Reset_gives_back_every_chunk ns h0 :
  fresh_answers h0 ->
  accepts_releases h0 = true ->
  exists ps b h b' h',
    allocates page hdr T ns Bump_new h0 = Done (ps, b, h) /\
    length ps = length ns /\
    Reset page hdr T b h = Done (b', h') /\
    headers h' = headers h0.
Proof.
  intros Hf Hacc.
  destruct (allocates_extends ns Bump_new h0 [])
    as (ps & b & h & l & Hal & Hlen & (Hchain & _) & _ & Hin & _ & Hframe & Hro);
    [split; [constructor | intros H; now destruct H] | exact Hf |].
  cbn [app] in *.
  destruct (Reset_owner b h l Hchain) as (h' & HR & _ & Hgone & Hrest).
  { unfold accepts_releases. rewrite Hro. exact Hacc. }
  exists ps, b, h, {| offset_ := 0; chunks_ := 0; current_ := current_ b |}, h'.
  split; [exact Hal|]. split; [exact Hlen|].
  split; [exact HR|].
  apply map_eq. intros x. destruct (in_dec Z.eq_dec x l) as [Hx|Hx].
  - rewrite (Hgone x Hx). symmetry. apply Hf. apply Hin. exact Hx.
  - rewrite (Hrest x Hx). apply Hframe. exact Hx.
Qed.

(** X16: the chunks must be released through one allocator object only:
    after [Reset] has released the chain, [Reset] (or the destructor, which
    calls it) through an object that still holds the old head, as a
    member-wise copy of the allocator does, reads the header of a chunk
    that is no longer live. *)
Theorem Reset_of_a_copy_faults b h l b' h' :
  chain (headers h) (chunks_ b) l ->
  chunks_ b <> 0 ->
  accepts_releases h = true ->
  Reset page hdr T b h = Done (b', h') ->
  Reset page hdr T b h' = Fault.
Proof.
  intros Hc Hne Hacc HR.
  destruct (Reset_owner b h l Hc Hacc) as (h1 & HR1 & _ & Hgone & _).
  rewrite HR1 in HR. injection HR as <- <-.
  assert (Hin : In (chunks_ b) l).
  { inversion Hc; subst; [congruence | now left]. }
  unfold Reset. cbn [chunks_].
  apply Z.eqb_neq in Hne. rewrite Hne. cbn [negb].
  unfold ReleaseChunks, internal_ReleaseChunks. cbn [ReleaseChunks_walk].
  rewrite Hne, (Hgone _ Hin). reflexivity.
Qed.

Lemma allocate_alike n b1 b2 h :
  alike b1 b2 ->
  observe (allocate page hdr T n b1 h) = observe (allocate page hdr T n b2 h) /\
  alike (bump_after (allocate page hdr T n b1 h))
        (bump_after (allocate page hdr T n b2 h)).
Proof.
  destruct b1 as [o1 c1 k1], b2 as [o2 c2 k2]. unfold alike.
  cbn [offset_ chunks_ current_]. intros (-> & -> & Hk).
  unfold allocate. cbn [offset_ chunks_ current_].
  destruct (_ >? _); [cbn; auto|].
  destruct (Z.eqb_spec c2 0) as [Hz|Hnz].
  - destruct (AllocateNewChunk page hdr T h) as [chunk h1].
    destruct (chunk =? 0); [cbn; intuition congruence|].
    split; [reflexivity|]. auto.
  - rewrite (Hk Hnz). split; [reflexivity|]. auto.
Qed.

Lemma allocates_alike ns : forall b1 b2 h,
  alike b1 b2 ->
  observe (allocates page hdr T ns b1 h) = observe (allocates page hdr T ns b2 h).
Proof.
  induction ns as [|n ns IH]; intros b1 b2 h Ha; [reflexivity|].
  cbn [allocates]. destruct (allocate_alike n b1 b2 h Ha) as [Ho Hb].
  destruct (allocate page hdr T n b1 h) as [[[p1 b1'] h1]| |],
           (allocate page hdr T n b2 h) as [[[p2 b2'] h2]| |];
    cbn in Ho; try discriminate; try reflexivity.
  injection Ho as <- <-. cbn [bump_after] in Hb.
  specialize (IH b1' b2' h1 Hb).
  destruct (allocates page hdr T ns b1' h1) as [[[ps1 c1] g1]| |],
           (allocates page hdr T ns b2' h1) as [[[ps2 c2] g2]| |];
    cbn in IH |- *; congruence.
Qed.

(** X17: after [Reset], an allocator is as good as new: a second [Reset]
    does nothing, and whatever is asked of the allocator, it returns the
    pointers a new allocator would return and leaves the heap a new
    allocator would leave, although its current-chunk pointer still holds
    the address of a released chunk. *)
Theorem Reset_allocator_is_as_new b h b' h' ns :
  Reset page hdr T b h = Done (b', h') ->
  Reset page hdr T b' h' = Done (b', h') /\
  observe (allocates page hdr T ns b' h')
  = observe (allocates page hdr T ns Bump_new h').
Proof.
  intros HR.
  assert (Hb : offset_ b' = 0 /\ chunks_ b' = 0).
  { unfold Reset in HR. cbn [chunks_ offset_ current_] in HR.
    destruct (negb _).
    - destruct (ReleaseChunks _ _ _ _ _); try discriminate.
      injection HR as <- <-. auto.
    - injection HR as <- <-. auto. }
  destruct Hb as [Ho Hc]. split.
  - unfold Reset. cbn [chunks_ offset_ current_]. rewrite Hc. cbn.
    destruct b'; cbn in *; congruence.
  - apply allocates_alike. unfold alike, Bump_new. cbn.
    split; [exact Ho|]. split; [exact Hc|]. intros H. contradiction.
Qed.

End Ownership.

Lemma allocate_within_payload_witness :
  let h := empty_heap [Some 4096] [] in
  let r := allocate 4096 16 small 16 Bump_new h in
  let b' := bump_after r in
  0 <= 3 <= 64 /\ Alignment_ small = 2 ^ 3 /\ 0 <= 16 /\
  0 <= 16 /\ 16 + 2 ^ 3 <= 2 ^ 64 /\
  Util.AlignUp 16 (Alignment_ small) <= AlignedSize_ 16 small - 16 /\
  offset_ok 16 small Bump_new /\
  r = Done (4112, b', heap_after r h) /\
  offset_ok 16 small b' /\
  (4112 <> 0 ->
   0 <= current_ b' -> current_ b' + AlignedSize_ 16 small < 2 ^ 64 ->
   current_ b' + 16 <= 4112 /\ 4112 + 16 <= current_ b' + AlignedSize_ 16 small /\
   (4112 - (current_ b' + 16)) mod Alignment_ small = 0 /\
   offset_ b' = 4112 - (current_ b' + 16) + Util.AlignUp 16 (Alignment_ small)).
Proof.
  intros h r b'.
  assert (Hk : 0 <= 3 <= 64) by lia.
  assert (HA : Alignment_ small = 2 ^ 3) by reflexivity.
  assert (Hhdr : 0 <= 16) by lia.
  assert (Hs : 16 + 2 ^ 3 <= 2 ^ 64) by lia.
  assert (Hfit : Util.AlignUp 16 (Alignment_ small) <= AlignedSize_ 16 small - 16)
    by (vm_compute; discriminate).
  assert (Hok : offset_ok 16 small Bump_new)
    by (split; [vm_compute; split; discriminate | reflexivity]).
  assert (Hr : r = Done (4112, b', heap_after r h)) by reflexivity.
  repeat (split; [assumption|]).
  exact (allocate_within_payload 4096 16 small 3 Hk HA Hhdr 16 Bump_new h 4112
           b' (heap_after r h) Hhdr Hs Hfit Hok Hr).
Defined.

Lemma allocations_in_a_chunk_follow_witness :
  let h := empty_heap [Some 4096; Some 8192] [] in
  let r1 := allocate 4096 16 small 64 Bump_new h in
  let b1 := bump_after r1 in
  let h1 := heap_after r1 h in
  let r2 := allocate 4096 16 small 8 b1 h1 in
  let b2 := bump_after r2 in
  let h2 := heap_after r2 h1 in
  0 <= 3 <= 64 /\ Alignment_ small = 2 ^ 3 /\
  0 <= 64 /\ 64 + 2 ^ 3 <= 2 ^ 64 /\
  r1 = Done (8208, b1, h1) /\
  r2 = Done (8272, b2, h2) /\
  8208 <> 0 /\ 8272 <> 0 /\
  log h2 = log h1 /\
  8208 + Util.AlignUp 64 (Alignment_ small) < 2 ^ 64 /\
  current_ b2 = current_ b1 /\
  8272 = 8208 + Util.AlignUp 64 (Alignment_ small) /\
  8208 + 64 <= 8272.
Proof.
  intros h r1 b1 h1 r2 b2 h2.
  assert (Hk : 0 <= 3 <= 64) by lia.
  assert (HA : Alignment_ small = 2 ^ 3) by reflexivity.
  assert (Hn : 0 <= 64) by lia.
  assert (Hs : 64 + 2 ^ 3 <= 2 ^ 64) by lia.
  assert (Hr1 : r1 = Done (8208, b1, h1)) by reflexivity.
  assert (Hr2 : r2 = Done (8272, b2, h2)) by reflexivity.
  assert (Hp1 : 8208 <> 0) by discriminate.
  assert (Hp2 : 8272 <> 0) by discriminate.
  assert (Hlog : log h2 = log h1) by reflexivity.
  assert (Hend : 8208 + Util.AlignUp 64 (Alignment_ small) < 2 ^ 64)
    by (vm_compute; reflexivity).
  repeat (split; [assumption|]).
  exact (allocations_in_a_chunk_follow 4096 16 small 3 Hk HA 64 8 Bump_new
           h 8208 b1 h1 8272 b2 h2 Hn Hs Hr1 Hr2 Hp1 Hp2 Hlog Hend).
Defined.

Lemma allocate_without_growth_witness :
  let h0 := empty_heap [Some 4096; Some 8192] [] in
  let r := allocate 4096 16 fixed 40 Bump_new h0 in
  let b := bump_after r in
  let h := heap_after r h0 in
  0 <= 16 /\ GrowWhenFull_ fixed = false /\ chunks_ b <> 0 /\
  0 <= offset_ b <= AlignedSize_ 16 fixed - 16 /\
  allocate 4096 16 fixed 16 b h =
    if (16 >? AlignedSize_ 16 fixed)
       || (Util.AlignUp 16 (Alignment_ fixed)
           >? AlignedSize_ 16 fixed - 16 - offset_ b)
    then Done (0, b, h)
    else Done (Util.wrap64 (GetChunk 16 (current_ b) + offset_ b),
               {| offset_ := offset_ b + Util.AlignUp 16 (Alignment_ fixed);
                  chunks_ := chunks_ b; current_ := current_ b |},
               h).
Proof.
  intros h0 r b h.
  assert (Hhdr : 0 <= 16) by lia.
  assert (Hg : GrowWhenFull_ fixed = false) by reflexivity.
  assert (Hc : chunks_ b <> 0) by discriminate.
  assert (Hoff : 0 <= offset_ b <= AlignedSize_ 16 fixed - 16)
    by (vm_compute; split; discriminate).
  repeat (split; [assumption|]).
  exact (allocate_without_growth 4096 16 fixed 16 b h Hhdr Hg Hc Hoff).
Defined.

Lemma Reset_gives_back_every_chunk_witness :
  let h0 := empty_heap [Some 4096; Some 8192] [] in
  fresh_answers h0 /\ accepts_releases h0 = true /\
  exists ps b h b' h',
    allocates 4096 16 small [16; 48] Bump_new h0 = Done (ps, b, h) /\
    length ps = length [16; 48] /\
    Reset 4096 16 small b h = Done (b', h') /\
    headers h' = headers h0.
Proof.
  intros h0.
  assert (Hf : fresh_answers h0).
  { split.
    - cbn. repeat constructor; rewrite ?list_elem_of_In; cbn; intuition lia.
    - intros p _. apply lookup_empty. }
  assert (Hacc : accepts_releases h0 = true) by reflexivity.
  split; [exact Hf|]. split; [exact Hacc|].
  exact (Reset_gives_back_every_chunk 4096 16 small [16; 48] h0 Hf Hacc).
Defined.

Lemma Reset_of_a_copy_faults_witness :
  let h0 := empty_heap [Some 4096] [] in
  let r := allocate 4096 16 small 16 Bump_new h0 in
  let b := bump_after r in
  let h := heap_after r h0 in
  let b' := {| offset_ := 0; chunks_ := 0; current_ := 4096 |} in
  let h' := {| headers := delete 4096 (headers h);
               alloc_oracle := alloc_oracle h; release_oracle := [];
               log := EvRelease ReleaseBytes 4096 true :: log h |} in
  chain (headers h) (chunks_ b) [4096] /\
  chunks_ b <> 0 /\
  accepts_releases h = true /\
  Reset 4096 16 small b h = Done (b', h') /\
  Reset 4096 16 small b h' = Fault.
Proof.
  intros h0 r b h b' h'.
  assert (Hc : chain (headers h) (chunks_ b) [4096]).
  { apply (chain_next (headers h) 4096 {| chunk_size := 64; next := 0 |} []).
    - discriminate.
    - vm_compute. reflexivity.
    - apply chain_null. }
  assert (Hne : chunks_ b <> 0) by discriminate.
  assert (Hacc : accepts_releases h = true) by reflexivity.
  assert (HR : Reset 4096 16 small b h = Done (b', h')) by reflexivity.
  repeat (split; [assumption|]).
  exact (Reset_of_a_copy_faults 4096 16 small b h [4096] b' h' Hc Hne Hacc HR).
Defined.

Lemma Reset_allocator_is_as_new_witness :
  let h0 := empty_heap [Some 4096; Some 8192] [] in
  let r := allocate 4096 16 small 16 Bump_new h0 in
  let b := bump_after r in
  let h := heap_after r h0 in
  let b' := {| offset_ := 0; chunks_ := 0; current_ := 4096 |} in
  let h' := {| headers := delete 4096 (headers h);
               alloc_oracle := alloc_oracle h; release_oracle := [];
               log := EvRelease ReleaseBytes 4096 true :: log h |} in
  Reset 4096 16 small b h = Done (b', h') /\
  Reset 4096 16 small b' h' = Done (b', h') /\
  observe (allocates 4096 16 small [24; 8] b' h')
  = observe (allocates 4096 16 small [24; 8] Bump_new h').
Proof.
  intros h0 r b h b' h'.
  assert (HR : Reset 4096 16 small b h = Done (b', h')) by reflexivity.
  split; [exact HR|].
  exact (Reset_allocator_is_as_new 4096 16 small b h b' h' [24; 8] HR).
Defined.

End BumpRunProofs.
